(** * OpusPlayer: jitter buffer and playback scheduler

  A shallow embedding of [src/ts/audio/opus-player.ts].  The player decodes
  Opus packets, interleaves the decoded planar channels into one flat
  backlog ([samples]) and, on a recurring timer tick, drains every complete
  frame of the backlog into one [AudioBuffer] that it schedules on the
  WebAudio clock.

  Modelling conventions
  - A [Float32Array] is a [list sample]; a sample is a primitive binary64
    float (every binary32 value is one).  Samples are only copied, never
    computed with.
  - Array lengths and channel counts are unary naturals ([nat]); sample
    rates and the flush period are binary naturals ([N]), so that the
    stream formats of real audio compute.  All of them stand for
    integer-valued, non-negative JavaScript numbers.  The two non-finite
    values that [flush] can compute ([Infinity] and [NaN], both from a
    division by zero) are kept in [jsnum].
  - Times on the [AudioContext] clock are exact rationals ([Q]), in
    seconds: the rounding of binary64 additions is not modelled.  The
    clock runs while [flush] does: [flush_at] takes every reading that the
    source takes, and [flush] is the case of a clock that stands still
    during the call.
  - The decoder and the WebAudio sink are collaborators.  The decoder is a
    record of what it answers on one call; the sink is the list of buffers
    handed to [start] together with their start times. *)

From Stdlib Require Import QArith PrimFloat FloatOps SpecFloat.
From stdpp Require Import base option list.

Open Scope nat_scope.

(** ** JavaScript values *)

Module JS.

Definition sample : Type := float.

(** What a typed array stores when it is given [undefined]. *)
Definition NaN : sample := nan.

(** [new Float32Array(n)]: [n] zeros. *)
Definition new_Float32Array (n : nat) : list sample := replicate n zero.

(** [a[i]] stored into a [Float32Array]: the element, or [NaN] for the
    [undefined] that an index past the end reads. *)
Definition load (a : list sample) (i : nat) : sample := default NaN (a !! i).

(** [for (let i = 0; i < n; i++) body], threading the mutated state. *)
Definition for_loop {S : Type} (n : nat) (body : nat → S → S) (s : S) : S :=
  foldl (λ acc i, body i acc) s (seq 0 n).

(** The numbers [flush] computes with. *)
Inductive jsnum : Type :=
| Fin (n : nat)
| Infinity
| NotANumber.

(** [Math.floor(a / b)] for non-negative integers [a] and [b]. *)
Definition floor_div (a b : nat) : jsnum :=
  match b with
  | 0 => match a with 0 => NotANumber | S _ => Infinity end
  | S _ => Fin (a / b)
  end.

(** [x * y]. *)
Definition mul (x y : jsnum) : jsnum :=
  match x, y with
  | Fin a, Fin b => Fin (a * b)
  | NotANumber, _ | _, NotANumber => NotANumber
  | Infinity, Fin 0 | Fin 0, Infinity => NotANumber
  | Infinity, _ | _, Infinity => Infinity
  end.

(** [x === 0]. *)
Definition is_zero (x : jsnum) : bool :=
  match x with Fin 0 => true | _ => false end.

(** Conversion to a WebIDL [unsigned long] and to a typed-array offset:
    [NaN] and [Infinity] become [0].  (Lengths stay below [2^32].) *)
Definition to_index (x : jsnum) : nat :=
  match x with Fin n => n | Infinity | NotANumber => 0 end.

(** [x || d] for an optional number: [undefined] and [0] are falsy. *)
Definition or_else {A : Type} `{EqDecision A} (zero : A) (x : option A) (d : A) : A :=
  match x with
  | Some v => if decide (v = zero) then d else v
  | None => d
  end.

Inductive Error : Type :=
| TypeError
| RangeError
| NotSupportedError
| DecodeError
| DecoderNotReady.

(** How a call ends. *)
Inductive Completion : Type :=
| Normal
| Throw (e : Error).

(** The [buffer] property of a value. *)
Inductive Buffer : Type :=
| ArrayBuffer (bytes : list Byte.byte)
| NotAnArrayBuffer.

(** A value passed to [feed], as far as [feed] looks at it: falsy
    ([null], [undefined], ...), or a value with the properties
    [byteLength] ([None] when [typeof] is not ['number']), [byteOffset]
    ([None] when [undefined]) and [buffer]. *)
Inductive Value : Type :=
| Falsy
| Object (byteLength : option Z) (byteOffset : option Z) (buffer : Buffer).

(** [new Uint8Array(buffer, byteOffset, length)]: the view's bytes, or
    [None] for the [RangeError] of a negative argument or of a view that
    does not fit in the buffer. *)
Definition new_Uint8Array (bytes : list Byte.byte) (byteOffset : option Z) (len : Z)
  : option (list Byte.byte) :=
  let offset := default 0%Z byteOffset in
  if ((offset <? 0) || (len <? 0) || (Z.of_nat (length bytes) <? offset + len))%Z
  then None
  else Some (take (Z.to_nat len) (drop (Z.to_nat offset) bytes)).

End JS.

(** ** The decoder collaborator *)

Module Decoder.

Record Frame : Type := {
  channelData : list (list JS.sample);
  sampleRate : N
}.

(** One call's view of the decoder: whether its [ready] promise resolves,
    and what [decodeFrame] answers on a packet ([None]: it throws). *)
Record OpusDecoder : Type := {
  ready : bool;
  decodeFrame : list Byte.byte → option Frame
}.

End Decoder.

(** ** The WebAudio sink *)

Module WebAudio.

Inductive ContextState : Type := Running | Closed.

Record AudioBuffer : Type := {
  numberOfChannels : nat;
  length : nat;
  sampleRate : N;
  channels : list (list JS.sample)
}.

(** The implementation behind an [AudioContext]: the channel counts,
    lengths and sample rates that its [createBuffer] accepts.  The ranges
    differ from one browser to the next. *)
Record Sink : Type := {
  supports : nat → nat → N → bool
}.

(** A sink with the ranges that every implementation has to accept: up
    to 32 channels, and sample rates from 8000 Hz to 96000 Hz. *)
Definition required_ranges : Sink :=
  {| supports := λ numberOfChannels _ sampleRate,
       (numberOfChannels <=? 32) && (8000 <=? sampleRate)%N && (sampleRate <=? 96000)%N |}.

(** [createBuffer(numberOfChannels, length, sampleRate)]: a zero-filled
    buffer, or [None] for the [NotSupportedError] of a zero argument or of
    arguments outside the ranges of the sink. *)
Definition createBuffer (sink : Sink) (numberOfChannels len : nat) (sampleRate : N)
  : option AudioBuffer :=
  if (numberOfChannels =? 0) || (len =? 0) || (sampleRate =? 0)%N
     || negb (supports sink numberOfChannels len sampleRate)
  then None
  else Some {| numberOfChannels := numberOfChannels;
               length := len;
               sampleRate := sampleRate;
               channels := replicate numberOfChannels (JS.new_Float32Array len) |}.

Definition getChannelData (b : AudioBuffer) (c : nat) : list JS.sample :=
  default [] (channels b !! c).

(** Writing through the array that [getChannelData] returned. *)
Definition setChannelData (b : AudioBuffer) (c : nat) (chData : list JS.sample) : AudioBuffer :=
  {| numberOfChannels := numberOfChannels b;
     length := length b;
     sampleRate := sampleRate b;
     channels := <[c := chData]> (channels b) |}.

(** [audioBuffer.duration], in seconds. *)
Definition duration (b : AudioBuffer) : Q :=
  inject_Z (Z.of_nat (length b)) / inject_Z (Z.of_N (sampleRate b)).

(** A call [src.start(when)] on a source playing [buffer]. *)
Record Scheduled : Type := {
  buffer : AudioBuffer;
  when : Q
}.

(** The outcome of the promise that [close()] returns. *)
Inductive CloseOutcome : Type := Fulfilled | RejectedInvalidState.

(** What [currentTime] reads during one call of [flush]: in the test of
    line 139, in the assignment of line 140, and when [start] is called in
    line 142. *)
Record Clock : Type := {
  at_test : Q;
  at_clamp : Q;
  at_start : Q
}.

(** A clock that stands still during the call. *)
Definition steady (currentTime : Q) : Clock :=
  {| at_test := currentTime; at_clamp := currentTime; at_start := currentTime |}.


(** [gain.value = level]: the value that the [AudioParam] keeps, which is
    [level] rounded to binary32, or [None] for the [TypeError] of a level
    that is not finite or that rounds to an infinity. *)
Definition set_value (level : float) : option float :=
  match Prim2SF level with
  | S754_finite s m e =>
      match binary_round 24 128 s m e with
      | S754_infinity _ => None
      | rounded => Some (SF2Prim rounded)
      end
  | S754_zero _ => Some level
  | S754_infinity _ | S754_nan => None
  end.

End WebAudio.

(** ** The player *)

Module Player.

Inductive Encoding : Type := Int8bit | Int16bit | Int32bit | Float32bit.

(** [OpusPlayerOptions]: every field may be absent; a field that is there
    holds a number.  (An object with a field that is there and
    [undefined], which the spread of [initOptions] would copy over the
    default, is not of this type.) *)
Record OpusPlayerOptions : Type := {
  opt_encoding : option Encoding;
  opt_channels : option nat;
  opt_sampleRate : option N;
  opt_flushingTime : option N
}.

(** [Required<OpusPlayerOptions>] *)
Record Options : Type := {
  encoding : Encoding;
  channels : nat;
  sampleRate : N;
  flushingTime : N
}.

Record OpusPlayer : Type := {
  option : Options;
  samples : list JS.sample;
  (** whether the interval behind [intervalId] is still registered *)
  intervalId : bool;
  audioCtx : WebAudio.ContextState;
  (** the implementation that [audioCtx] was constructed by *)
  sink : WebAudio.Sink;
  (** [gainNode.gain.value] *)
  gainNode : float;
  startTime : Q;
  _decodedSampleRate : Datatypes.option N;
  _decodedChannels : Datatypes.option nat
}.

Definition set_samples (s : list JS.sample) (p : OpusPlayer) : OpusPlayer :=
  {| option := option p; samples := s; intervalId := intervalId p;
     audioCtx := audioCtx p; sink := sink p; gainNode := gainNode p; startTime := startTime p;
     _decodedSampleRate := _decodedSampleRate p;
     _decodedChannels := _decodedChannels p |}.

Definition set_startTime (t : Q) (p : OpusPlayer) : OpusPlayer :=
  {| option := option p; samples := samples p; intervalId := intervalId p;
     audioCtx := audioCtx p; sink := sink p; gainNode := gainNode p; startTime := t;
     _decodedSampleRate := _decodedSampleRate p;
     _decodedChannels := _decodedChannels p |}.

Definition set_decoded (sr : N) (ch : nat) (p : OpusPlayer) : OpusPlayer :=
  {| option := option p; samples := samples p; intervalId := intervalId p;
     audioCtx := audioCtx p; sink := sink p; gainNode := gainNode p; startTime := startTime p;
     _decodedSampleRate := Some sr;
     _decodedChannels := Some ch |}.

(** [initOptions]: the defaults, overridden by the fields given. *)
Definition initOptions (options : OpusPlayerOptions) : Options :=
  {| encoding := default Int16bit (opt_encoding options);
     channels := default 2 (opt_channels options);
     sampleRate := default 48000%N (opt_sampleRate options);
     flushingTime := default 20%N (opt_flushingTime options) |}.

(** The constructor, in a window whose [AudioContext] is implemented by
    [sink], with the context created at clock time [currentTime]. *)
Definition new_on (sink : WebAudio.Sink) (options : OpusPlayerOptions) (currentTime : Q)
  : OpusPlayer :=
  {| option := initOptions options;
     samples := JS.new_Float32Array 0;
     intervalId := true;
     audioCtx := WebAudio.Running;
     sink := sink;
     gainNode := 1%float;
     startTime := currentTime;
     _decodedSampleRate := None;
     _decodedChannels := None |}.

(** The constructor on a sink with the required ranges. *)
Definition new (options : OpusPlayerOptions) (currentTime : Q) : OpusPlayer :=
  new_on WebAudio.required_ranges options currentTime.

Definition isTypedArray (data : JS.Value) : bool :=
  match data with
  | JS.Falsy => false
  | JS.Object byteLength _ buffer =>
      bool_decide (is_Some byteLength)
      && match buffer with JS.ArrayBuffer _ => true | JS.NotAnArrayBuffer => false end
  end.

(** [channelData[c][i]], as stored into a [Float32Array]. *)
Definition channel_sample (channelData : list (list JS.sample)) (c i : nat) : JS.sample :=
  JS.load (default [] (channelData !! c)) i.

(** Lines 78-85 of [feed]: [None] when [channelData[0]] is [undefined],
    so that reading its [length] raises a [TypeError]. *)
Definition interleave (channelData : list (list JS.sample)) : Datatypes.option (list JS.sample) :=
  let ch := length channelData in
  match channelData !! 0 with
  | None => None
  | Some first =>
      let len := length first in
      let inter := JS.new_Float32Array (len * ch) in
      Some (JS.for_loop len (λ i inter,
              JS.for_loop ch (λ c inter,
                <[i * ch + c := channel_sample channelData c i]> inter) inter) inter)
  end.

(** [feed] from line 68 on: what it does with the decoder's answer. *)
Definition buffer_frame (frame : Decoder.Frame) (p : OpusPlayer) : JS.Completion * OpusPlayer :=
  let channelData := Decoder.channelData frame in
  let p :=
    match _decodedSampleRate p with
    | None => set_decoded (Decoder.sampleRate frame) (length channelData) p
    | Some _ => p
    end in
  match interleave channelData with
  | None => (JS.Throw JS.TypeError, p)
  | Some inter => (JS.Normal, set_samples (samples p ++ inter) p)
  end.

(** [feed]: the completion of the promise it returns, and the player
    afterwards.  The body after [await this.decoderReady] runs without
    interruption. *)
Definition feed (decoder : Decoder.OpusDecoder) (data : JS.Value) (p : OpusPlayer)
  : JS.Completion * OpusPlayer :=
  if negb (isTypedArray data) then (JS.Normal, p)
  else if negb (Decoder.ready decoder) then (JS.Throw JS.DecoderNotReady, p)
  else
    match data with
    | JS.Object (Some byteLength) byteOffset (JS.ArrayBuffer bytes) =>
        match JS.new_Uint8Array bytes byteOffset byteLength with
        | None => (JS.Throw JS.RangeError, p)
        | Some packet =>
            match Decoder.decodeFrame decoder packet with
            | None => (JS.Throw JS.DecodeError, p)
            | Some frame => buffer_frame frame p
            end
        end
    | _ => (JS.Normal, p)
    end.

(** [volume]: the setter of [gain.value] raises for a level that the
    [AudioParam] cannot hold, and the gain then stays what it was. *)
Definition volume (level : float) (p : OpusPlayer) : JS.Completion * OpusPlayer :=
  let value := WebAudio.set_value level in
  (match value with Some _ => JS.Normal | None => JS.Throw JS.TypeError end,
   {| option := option p; samples := samples p; intervalId := intervalId p;
      audioCtx := audioCtx p; sink := sink p;
      gainNode := default (gainNode p) value; startTime := startTime p;
      _decodedSampleRate := _decodedSampleRate p;
      _decodedChannels := _decodedChannels p |}).

(** [destroy]: the outcome of the promise of [close()], which nobody
    looks at, and the player afterwards. *)
Definition destroy (p : OpusPlayer) : WebAudio.CloseOutcome * OpusPlayer :=
  (match audioCtx p with
   | WebAudio.Running => WebAudio.Fulfilled
   | WebAudio.Closed => WebAudio.RejectedInvalidState
   end,
   {| option := option p; samples := JS.new_Float32Array 0; intervalId := false;
      audioCtx := WebAudio.Closed; sink := sink p; gainNode := gainNode p;
      startTime := startTime p;
      _decodedSampleRate := _decodedSampleRate p;
      _decodedChannels := _decodedChannels p |}).

(** The effective format and frame sizes of [flush] (lines 108-111). *)
Definition sr (p : OpusPlayer) : N :=
  JS.or_else 0%N (_decodedSampleRate p) (sampleRate (option p)).

Definition effective_channels (p : OpusPlayer) : nat :=
  JS.or_else 0 (_decodedChannels p) (channels (option p)).

Definition frameSamples (p : OpusPlayer) : nat :=
  N.to_nat ((sr p * flushingTime (option p)) / 1000).

Definition frameSize (p : OpusPlayer) : nat :=
  frameSamples p * effective_channels p.

Definition fullFrames (p : OpusPlayer) : JS.jsnum :=
  JS.floor_div (length (samples p)) (frameSize p).

(** Lines 124-131 of [flush]: fill every channel of [audioBuffer] from
    the interleaved [samples]. *)
Definition deinterleave (samples : list JS.sample) (channels bufferLen : nat)
    (audioBuffer : WebAudio.AudioBuffer) : WebAudio.AudioBuffer :=
  JS.for_loop channels (λ c audioBuffer,
    let chData := WebAudio.getChannelData audioBuffer c in
    let readIdx := c in
    let '(_, chData) :=
      JS.for_loop bufferLen (λ i '(readIdx, chData),
        (readIdx + channels, <[i := JS.load samples readIdx]> chData))
        (readIdx, chData) in
    WebAudio.setChannelData audioBuffer c chData) audioBuffer.

Inductive FlushResult : Type :=
| Returned (scheduled : Datatypes.option WebAudio.Scheduled)
| Threw (e : JS.Error).

(** [flush], with the readings that it takes of the sink's clock: line
    139 compares [startTime] with one reading, line 140 assigns another,
    and [start] runs after both. *)
Definition flush_at (clock : WebAudio.Clock) (p : OpusPlayer) : FlushResult * OpusPlayer :=
  let channels := effective_channels p in
  if JS.is_zero (fullFrames p) then (Returned None, p)
  else
    let totalSamples := JS.mul (fullFrames p) (JS.Fin (frameSize p)) in
    let bufferLen := JS.mul (JS.Fin (frameSamples p)) (fullFrames p) in
    match WebAudio.createBuffer (sink p) channels (JS.to_index bufferLen) (sr p) with
    | None => (Threw JS.NotSupportedError, p)
    | Some audioBuffer =>
        let audioBuffer :=
          deinterleave (samples p) channels (JS.to_index bufferLen) audioBuffer in
        let start :=
          if Qlt_le_dec (startTime p) (WebAudio.at_test clock)
          then WebAudio.at_clamp clock
          else startTime p in
        (Returned (Some {| WebAudio.buffer := audioBuffer; WebAudio.when := start |}),
         set_samples (drop (JS.to_index totalSamples) (samples p))
           (set_startTime (start + WebAudio.duration audioBuffer) p))
    end.

(** [flush] while the sink's clock stands at [currentTime]. *)
Definition flush (currentTime : Q) (p : OpusPlayer) : FlushResult * OpusPlayer :=
  flush_at (WebAudio.steady currentTime) p.

(** What happens to a player. *)
Inductive Event : Type :=
| Feed (decoder : Decoder.OpusDecoder) (data : JS.Value)
| Tick (currentTime : Q)
| Volume (level : float)
| Destroy.

(** One event: the buffer it schedules on the sink, if any, and the
    player afterwards.  The timer calls [flush] only while the interval
    is registered; an exception leaves through the caller. *)
Definition step (e : Event) (p : OpusPlayer) : Datatypes.option WebAudio.Scheduled * OpusPlayer :=
  match e with
  | Feed decoder data => (None, (feed decoder data p).2)
  | Tick currentTime =>
      if intervalId p then
        match flush currentTime p with
        | (Returned scheduled, p') => (scheduled, p')
        | (Threw _, p') => (None, p')
        end
      else (None, p)
  | Volume level => (None, (volume level p).2)
  | Destroy => (None, (destroy p).2)
  end.

(** A run of events: everything scheduled, in order, and the player at
    the end. *)
Fixpoint run (es : list Event) (p : OpusPlayer) : list WebAudio.Scheduled * OpusPlayer :=
  match es with
  | [] => ([], p)
  | e :: es =>
      let '(s, p') := step e p in
      let '(ss, p'') := run es p' in
      (from_option (λ x, [x]) [] s ++ ss, p'')
  end.

Definition is_tick (e : Event) : bool :=
  match e with Tick _ => true | _ => false end.

End Player.

(** ** Notions used to state the properties *)

(** The interleaved layout, frame by frame: frame [i] holds sample [i] of
    every channel, in channel order. *)
Definition frame_row (channelData : list (list JS.sample)) (ch i : nat) : list JS.sample :=
  (λ c, Player.channel_sample channelData c i) <$> seq 0 ch.

Definition interleaved (channelData : list (list JS.sample)) (ch len : nat) : list JS.sample :=
  mjoin (frame_row channelData ch <$> seq 0 len).

(** The planar layout read back from interleaved samples. *)
Definition planar (samples : list JS.sample) (ch len : nat) : list (list JS.sample) :=
  (λ c, (λ i, JS.load samples (c + i * ch)) <$> seq 0 len) <$> seq 0 ch.

(** A block of [ch] channels of [n] samples each. *)
Definition block (ch n : nat) (channelData : list (list JS.sample)) : Prop :=
  length channelData = ch ∧ Forall (λ chan, length chan = n) channelData.

(** The length [feed] takes for a block: that of its first channel. *)
Definition block_length (channelData : list (list JS.sample)) : nat :=
  length (default [] (channelData !! 0)).

(** Blocks of [ch] channels put end to end, channel by channel. *)
Definition concat_blocks (ch : nat) (blocks : list (list (list JS.sample)))
  : list (list JS.sample) :=
  foldr (zip_with (++)) (replicate ch []) blocks.

(** Successive calls of [feed], each with the decoder as it is at that
    call and the value passed. *)
Definition feeds (calls : list (Decoder.OpusDecoder * JS.Value)) : list Player.Event :=
  (λ call, Player.Feed call.1 call.2) <$> calls.

(** The frame that a call of [feed] gets from the decoder, if it gets
    that far. *)
Definition decoded (decoder : Decoder.OpusDecoder) (data : JS.Value) : option Decoder.Frame :=
  match data with
  | JS.Object (Some byteLength) byteOffset (JS.ArrayBuffer bytes) =>
      if Decoder.ready decoder
      then JS.new_Uint8Array bytes byteOffset byteLength ≫= Decoder.decodeFrame decoder
      else None
  | _ => None
  end.

(** The start time [flush] settles on: the virtual clock, moved forward
    to the sink's clock when it has fallen behind (lines 139-141). *)
Definition clamp (startTime currentTime : Q) : Q :=
  if Qlt_le_dec startTime currentTime then currentTime else startTime.

(** The same with a clock that runs during the call. *)
Definition clamp_at (startTime : Q) (clock : WebAudio.Clock) : Q :=
  if Qlt_le_dec startTime (WebAudio.at_test clock)
  then WebAudio.at_clamp clock
  else startTime.

(** Buffers scheduled one after the other, none before [t] and none
    before the end of the one scheduled before it. *)
Fixpoint in_sequence (t : Q) (scheduled : list WebAudio.Scheduled) : Prop :=
  match scheduled with
  | [] => True
  | s :: scheduled =>
      (t <= WebAudio.when s)%Q ∧
      in_sequence (WebAudio.when s + WebAudio.duration (WebAudio.buffer s)) scheduled
  end.

(** The number of complete frames in the backlog, when a frame is not
    empty. *)
Definition frames_available (p : Player.OpusPlayer) : nat :=
  length (Player.samples p) / Player.frameSize p.

(** The buffer that [flush] builds from the complete frames. *)
Definition drained_buffer (p : Player.OpusPlayer) : WebAudio.AudioBuffer :=
  let bufferLen := Player.frameSamples p * frames_available p in
  {| WebAudio.numberOfChannels := Player.effective_channels p;
     WebAudio.length := bufferLen;
     WebAudio.sampleRate := Player.sr p;
     WebAudio.channels := planar (Player.samples p) (Player.effective_channels p) bufferLen |}.

(** Whether the sink accepts the buffer that [flush] asks for. *)
Definition supported (p : Player.OpusPlayer) : bool :=
  WebAudio.supports (Player.sink p) (Player.effective_channels p)
    (Player.frameSamples p * frames_available p) (Player.sr p).

(** The four ways a call of [flush] goes. *)
Inductive flush_at_outcome (clock : WebAudio.Clock) (p : Player.OpusPlayer)
  : Player.FlushResult * Player.OpusPlayer → Prop :=
| flush_empty_frame :
    Player.frameSize p = 0 →
    flush_at_outcome clock p (Player.Threw JS.NotSupportedError, p)
| flush_underrun :
    0 < Player.frameSize p →
    length (Player.samples p) < Player.frameSize p →
    flush_at_outcome clock p (Player.Returned None, p)
| flush_unsupported :
    0 < Player.frameSize p →
    Player.frameSize p ≤ length (Player.samples p) →
    supported p = false →
    flush_at_outcome clock p (Player.Threw JS.NotSupportedError, p)
| flush_drain :
    0 < Player.frameSize p →
    Player.frameSize p ≤ length (Player.samples p) →
    supported p = true →
    flush_at_outcome clock p
      (Player.Returned
         (Some {| WebAudio.buffer := drained_buffer p;
                  WebAudio.when := clamp_at (Player.startTime p) clock |}),
       Player.set_samples
         (drop (frames_available p * Player.frameSize p) (Player.samples p))
         (Player.set_startTime
            (clamp_at (Player.startTime p) clock + WebAudio.duration (drained_buffer p))
            p)).

(** The same for a clock that stands still. *)
Definition flush_outcome (currentTime : Q) (p : Player.OpusPlayer)
  (outcome : Player.FlushResult * Player.OpusPlayer) : Prop :=
  flush_at_outcome (WebAudio.steady currentTime) p outcome.

(** ** A small stream for the examples

    Stereo at 8 kHz, flushed every 1 ms: a frame is 8 samples per channel,
    16 interleaved samples. *)

Definition stereo_8kHz : Player.OpusPlayerOptions :=
  {| Player.opt_encoding := None;
     Player.opt_channels := None;
     Player.opt_sampleRate := Some 8000%N;
     Player.opt_flushingTime := Some 1%N |}.

(** A decoder that is ready and answers [frame]. *)
Definition answering (frame : Decoder.Frame) : Decoder.OpusDecoder :=
  {| Decoder.ready := true; Decoder.decodeFrame := λ _, Some frame |}.

(** A three-byte [Uint8Array] over its own buffer. *)
Definition packet : JS.Value :=
  JS.Object (Some 3%Z) (Some 0%Z) (JS.ArrayBuffer [Byte.x01; Byte.x02; Byte.x03]).

(** A value that passes [isTypedArray] although its [byteLength] is not
    that of its buffer: [{byteLength: 100, byteOffset: 0, buffer: new
    ArrayBuffer(3)}]. *)
Definition overlong : JS.Value :=
  JS.Object (Some 100%Z) (Some 0%Z) (JS.ArrayBuffer [Byte.x01; Byte.x02; Byte.x03]).

Definition frame_a : Decoder.Frame :=
  {| Decoder.channelData :=
       [[0.5; 0.25; 0.125; 0.0625; 0; -0.0625; -0.125; -0.25];
        [-0.5; -0.25; -0.125; -0.0625; 0; 0.0625; 0.125; 0.25]]%float;
     Decoder.sampleRate := 8000%N |}.

Definition frame_b : Decoder.Frame :=
  {| Decoder.channelData :=
       [[-0.5; -0.75; -1; -0.75; -0.5; -0.25; 0; 0.25];
        [0.5; 0.75; 1; 0.75; 0.5; 0.25; 0; -0.25]]%float;
     Decoder.sampleRate := 8000%N |}.

(** A player created at time 0 that has been fed [frame_a]. *)
Definition fed_a : Player.OpusPlayer :=
  (Player.feed (answering frame_a) packet (Player.new stereo_8kHz 0)).2.


(** A player whose flush period is 0 ms, so that a frame has no samples. *)
Definition period_0 : Player.OpusPlayerOptions :=
  {| Player.opt_encoding := None;
     Player.opt_channels := None;
     Player.opt_sampleRate := None;
     Player.opt_flushingTime := Some 0%N |}.

(** ** The default stream: stereo at 48 kHz, flushed every 20 ms

    A frame is 960 samples per channel, 1920 interleaved samples. *)

Definition defaults : Player.OpusPlayerOptions :=
  {| Player.opt_encoding := None;
     Player.opt_channels := None;
     Player.opt_sampleRate := None;
     Player.opt_flushingTime := None |}.

(** 10 ms of stereo audio: 480 samples per channel. *)
Definition block_10ms : Decoder.Frame :=
  {| Decoder.channelData := [replicate 480 0.5%float; replicate 480 (-0.5)%float];
     Decoder.sampleRate := 48000 |}.

Definition fed_10ms : Player.OpusPlayer :=
  (Player.feed (answering block_10ms) packet (Player.new defaults 0)).2.

Definition fed_20ms : Player.OpusPlayer :=
  (Player.feed (answering block_10ms) packet fed_10ms).2.

(** ** Notions for the properties of whole runs *)

(** The end of the last buffer scheduled, or [t] when there is none. *)
Fixpoint last_end (t : Q) (scheduled : list WebAudio.Scheduled) : Q :=
  match scheduled with
  | [] => t
  | s :: scheduled =>
      last_end (WebAudio.when s + WebAudio.duration (WebAudio.buffer s)) scheduled
  end.

(** The interleaved samples that an event adds to the backlog. *)
Definition ingested (e : Player.Event) : list JS.sample :=
  match e with
  | Player.Feed decoder data =>
      default [] (decoded decoder data
                  ≫= λ frame, Player.interleave (Decoder.channelData frame))
  | _ => []
  end.

(** The samples of a scheduled buffer, in interleaved order. *)
Definition played (s : WebAudio.Scheduled) : list JS.sample :=
  default [] (Player.interleave (WebAudio.channels (WebAudio.buffer s))).

Definition is_destroy (e : Player.Event) : bool :=
  match e with Player.Destroy => true | _ => false end.


(** A mono frame at 8 kHz, for the examples. *)
Definition frame_mono : Decoder.Frame :=
  {| Decoder.channelData := [[0.5; 0.25; -0.25; -0.5]]%float;
     Decoder.sampleRate := 8000%N |}.

(** A frame without any channel. *)
Definition frame_no_channel : Decoder.Frame :=
  {| Decoder.channelData := []; Decoder.sampleRate := 8000%N |}.

(** A sink that accepts sample rates from 44100 Hz on only. *)
Definition no_low_rates : WebAudio.Sink :=
  {| WebAudio.supports := λ _ _ sampleRate, (44100 <=? sampleRate)%N |}.

(** A clock that moves on by one render quantum of 128 frames at 48 kHz
    between the reading of line 140 and the call of [start]. *)
Definition quantum_later : WebAudio.Clock :=
  {| WebAudio.at_test := 1 # 100;
     WebAudio.at_clamp := 1 # 100;
     WebAudio.at_start := (1 # 100) + (128 # 48000) |}.

(** A player that has been fed a frame without channels, then [frame_a]. *)
Definition fed_no_channel_then_a : Player.OpusPlayer :=
  (Player.feed (answering frame_a) packet
     (Player.feed (answering frame_no_channel) packet (Player.new stereo_8kHz 0)).2).2.

(** A player on [no_low_rates] that has been fed [frame_a]. *)
Definition fed_a_unsupported : Player.OpusPlayer :=
  (Player.feed (answering frame_a) packet (Player.new_on no_low_rates stereo_8kHz 0)).2.

(** * Properties *)

(** ** Loops that fill an array *)

Section loops.
Context {A : Type}.
Implicit Types (l : list A) (f : nat → A).

Lemma for_loop_0 {S} (body : nat → S → S) (s : S) : JS.for_loop 0 body s = s.
Proof. reflexivity. Qed.

Lemma for_loop_S {S} (n : nat) (body : nat → S → S) (s : S) :
  JS.for_loop (Datatypes.S n) body s = body n (JS.for_loop n body s).
Proof. unfold JS.for_loop. by rewrite seq_S, foldl_snoc. Qed.

(** A loop that writes [f 0], [f 1], ... at the consecutive indices from
    [b] on replaces exactly that segment. *)
Lemma for_loop_fill b n f l :
  b + n ≤ length l →
  JS.for_loop n (λ c acc, <[b + c := f c]> acc) l
  = take b l ++ (f <$> seq 0 n) ++ drop (b + n) l.
Proof.
  induction n as [|n IH]; intros Hlen.
  - rewrite for_loop_0, Nat.add_0_r. simpl. by rewrite take_drop.
  - rewrite for_loop_S, IH by lia.
    destruct (lookup_lt_is_Some_2 l (b + n)) as [y Hy]; [lia|].
    rewrite (drop_S _ _ _ Hy), seq_S, fmap_app. simpl.
    rewrite insert_app_r_alt by (rewrite length_take; lia).
    rewrite length_take, Nat.min_l by lia.
    rewrite insert_app_r_alt by (rewrite length_fmap, length_seq; lia).
    rewrite length_fmap, length_seq.
    replace (b + n - b - n) with 0 by lia. simpl.
    rewrite <-(assoc_L (++)). simpl.
    by replace (b + Datatypes.S n) with (Datatypes.S (b + n)) by lia.
Qed.

(** The same loop with a running read index, as [flush] writes it. *)
Lemma for_loop_fill_stride (g : nat → A) (stride c n : nat) l :
  n ≤ length l →
  JS.for_loop n (λ i '(readIdx, chData), (readIdx + stride, <[i := g readIdx]> chData)) (c, l)
  = (c + n * stride, ((λ i, g (c + i * stride)) <$> seq 0 n) ++ drop n l).
Proof.
  induction n as [|n IH]; intros Hlen.
  - rewrite for_loop_0. simpl. by rewrite Nat.add_0_r.
  - rewrite for_loop_S, IH by lia.
    destruct (lookup_lt_is_Some_2 l n) as [y Hy]; [lia|].
    rewrite (drop_S _ _ _ Hy), seq_S, fmap_app. simpl. f_equal; [lia|].
    rewrite insert_app_r_alt by (rewrite length_fmap, length_seq; lia).
    rewrite length_fmap, length_seq, Nat.sub_diag. simpl.
    by rewrite <-(assoc_L (++)).
Qed.

End loops.

(** ** Interleaving *)

Lemma length_frame_row cd ch i : length (frame_row cd ch i) = ch.
Proof. unfold frame_row. by rewrite length_fmap, length_seq. Qed.

Lemma Forall_frame_row cd ch (rows : list nat) :
  Forall (λ l : list JS.sample, length l = ch) (frame_row cd ch <$> rows).
Proof. apply Forall_fmap, Forall_true. intros i. apply length_frame_row. Qed.

Lemma length_interleaved cd ch len : length (interleaved cd ch len) = len * ch.
Proof.
  unfold interleaved. rewrite length_join.
  rewrite (sum_list_fmap_same ch) by apply Forall_frame_row.
  by rewrite length_fmap, length_seq.
Qed.

Lemma lookup_interleaved cd ch len i c :
  i < len → c < ch →
  interleaved cd ch len !! (i * ch + c) = Some (Player.channel_sample cd c i).
Proof.
  intros Hi Hc. unfold interleaved.
  apply (join_lookup_Some_same_length' ch); [apply Forall_frame_row|done|].
  exists (frame_row cd ch i). split.
  - by rewrite list_lookup_fmap, lookup_seq_lt.
  - unfold frame_row. by rewrite list_lookup_fmap, lookup_seq_lt.
Qed.

Lemma interleaved_S cd ch len :
  interleaved cd ch (S len) = interleaved cd ch len ++ frame_row cd ch len.
Proof.
  unfold interleaved. rewrite seq_S, fmap_app, join_app. simpl.
  by rewrite (right_id_L [] (++)).
Qed.

(** The outer loop of [feed], after [i] frames. *)
Lemma interleave_loop cd ch i (inter : list JS.sample) :
  i * ch ≤ length inter →
  JS.for_loop i (λ i inter,
    JS.for_loop ch (λ c inter,
      <[i * ch + c := Player.channel_sample cd c i]> inter) inter) inter
  = interleaved cd ch i ++ drop (i * ch) inter.
Proof.
  induction i as [|i IH]; intros Hlen.
  - by rewrite for_loop_0.
  - rewrite for_loop_S, IH by lia.
    rewrite (for_loop_fill (i * ch) ch (λ c, Player.channel_sample cd c i)).
    + rewrite take_app_length' by (by rewrite length_interleaved).
      rewrite drop_app_add' by (by rewrite length_interleaved).
      rewrite drop_drop, interleaved_S, <-(assoc_L (++)).
      do 3 f_equal. lia.
    + rewrite length_app, length_interleaved, length_drop. simpl in Hlen. lia.
Qed.

Lemma interleave_Some cd first :
  cd !! 0 = Some first →
  Player.interleave cd = Some (interleaved cd (length cd) (length first)).
Proof.
  intros Hfirst. unfold Player.interleave. rewrite Hfirst. f_equal.
  rewrite interleave_loop by (unfold JS.new_Float32Array; by rewrite length_replicate).
  rewrite drop_ge by (unfold JS.new_Float32Array; by rewrite length_replicate).
  by rewrite (right_id_L [] (++)).
Qed.

Lemma interleave_None cd : Player.interleave cd = None ↔ cd = [].
Proof.
  destruct cd as [|first cd]; [done|].
  by rewrite (interleave_Some _ first).
Qed.

Lemma channel_sample_lookup cd c i chan x :
  cd !! c = Some chan → chan !! i = Some x → Player.channel_sample cd c i = x.
Proof. intros Hc Hi. unfold Player.channel_sample, JS.load. by rewrite Hc; simpl; rewrite Hi. Qed.


(** ** De-interleaving *)

Lemma length_planar samples ch len : length (planar samples ch len) = ch.
Proof. unfold planar. by rewrite length_fmap, length_seq. Qed.

Lemma lookup_planar samples ch len c :
  c < ch →
  planar samples ch len !! c = Some ((λ i, JS.load samples (c + i * ch)) <$> seq 0 len).
Proof. intros Hc. unfold planar. by rewrite list_lookup_fmap, lookup_seq_lt. Qed.

(** The outer loop of [flush], after [c] channels. *)
Lemma deinterleave_loop samples ch len c (b : WebAudio.AudioBuffer) :
  c ≤ length (WebAudio.channels b) →
  Forall (λ chData, length chData = len) (WebAudio.channels b) →
  JS.for_loop c (λ c audioBuffer,
    let chData := WebAudio.getChannelData audioBuffer c in
    let readIdx := c in
    let '(_, chData) :=
      JS.for_loop len (λ i '(readIdx, chData),
        (readIdx + ch, <[i := JS.load samples readIdx]> chData))
        (readIdx, chData) in
    WebAudio.setChannelData audioBuffer c chData) b
  = {| WebAudio.numberOfChannels := WebAudio.numberOfChannels b;
       WebAudio.length := WebAudio.length b;
       WebAudio.sampleRate := WebAudio.sampleRate b;
       WebAudio.channels :=
         ((λ c, (λ i, JS.load samples (c + i * ch)) <$> seq 0 len) <$> seq 0 c)
         ++ drop c (WebAudio.channels b) |}.
Proof.
  intros Hc Hlen. induction c as [|c IH].
  - rewrite for_loop_0. by destruct b.
  - rewrite for_loop_S, IH by lia. clear IH. rewrite seq_S, fmap_app.
    destruct (lookup_lt_is_Some_2 (WebAudio.channels b) c) as [chData HchData]; [lia|].
    assert (length chData = len) as HlenData
      by (by eapply (proj1 (Forall_lookup _ _) Hlen)).
    unfold WebAudio.getChannelData, WebAudio.setChannelData. simpl.
    rewrite lookup_app_r by (rewrite length_fmap, length_seq; lia).
    rewrite length_fmap, length_seq, Nat.sub_diag, lookup_drop, Nat.add_0_r, HchData.
    simpl. rewrite for_loop_fill_stride by lia.
    rewrite drop_ge, (right_id_L [] (++)) by lia.
    f_equal.
    rewrite insert_app_r_alt by (rewrite length_fmap, length_seq; lia).
    rewrite length_fmap, length_seq, Nat.sub_diag.
    rewrite (drop_S _ _ _ HchData). simpl.
    by rewrite <-(assoc_L (++)).
Qed.

Lemma deinterleave_planar samples ch len (b : WebAudio.AudioBuffer) :
  length (WebAudio.channels b) = ch →
  Forall (λ chData, length chData = len) (WebAudio.channels b) →
  Player.deinterleave samples ch len b
  = {| WebAudio.numberOfChannels := WebAudio.numberOfChannels b;
       WebAudio.length := WebAudio.length b;
       WebAudio.sampleRate := WebAudio.sampleRate b;
       WebAudio.channels := planar samples ch len |}.
Proof.
  intros Hch Hlen. unfold Player.deinterleave.
  rewrite deinterleave_loop by (done || lia).
  by rewrite drop_ge, (right_id_L [] (++)) by lia.
Qed.

Lemma createBuffer_Some sink ch len rate :
  0 < ch → 0 < len → (0 < rate)%N →
  WebAudio.supports sink ch len rate = true →
  WebAudio.createBuffer sink ch len rate
  = Some {| WebAudio.numberOfChannels := ch;
            WebAudio.length := len;
            WebAudio.sampleRate := rate;
            WebAudio.channels := replicate ch (JS.new_Float32Array len) |}.
Proof.
  intros Hch Hlen Hrate Hsupports. unfold WebAudio.createBuffer. rewrite Hsupports.
  destruct ch, len, rate; done || lia.
Qed.

Lemma createBuffer_inv sink ch len rate b :
  WebAudio.createBuffer sink ch len rate = Some b →
  0 < ch ∧ 0 < len ∧ (0 < rate)%N ∧
  b = {| WebAudio.numberOfChannels := ch;
         WebAudio.length := len;
         WebAudio.sampleRate := rate;
         WebAudio.channels := replicate ch (JS.new_Float32Array len) |}.
Proof.
  unfold WebAudio.createBuffer.
  destruct ch, len, rate; simpl; try done;
    destruct (WebAudio.supports sink _ _ _); simpl; intros [= <-]; repeat split; lia.
Qed.

Lemma createBuffer_None sink ch len rate :
  WebAudio.createBuffer sink ch len rate = None
  ↔ ch = 0 ∨ len = 0 ∨ rate = 0%N ∨ WebAudio.supports sink ch len rate = false.
Proof.
  unfold WebAudio.createBuffer.
  destruct ch, len, rate; simpl; try (split; intros H; (by auto) || lia);
    destruct (WebAudio.supports sink _ _ _); simpl;
    split; intros H; done || (by auto 6) || (destruct H as [?|[?|[?|?]]]; done || lia).
Qed.

(** What [flush] hands to the sink once [createBuffer] has succeeded. *)
Lemma deinterleave_createBuffer sink samples ch len rate b :
  WebAudio.createBuffer sink ch len rate = Some b →
  Player.deinterleave samples ch len b
  = {| WebAudio.numberOfChannels := ch;
       WebAudio.length := len;
       WebAudio.sampleRate := rate;
       WebAudio.channels := planar samples ch len |}.
Proof.
  intros (_ & _ & _ & ->)%createBuffer_inv.
  rewrite deinterleave_planar; simpl.
  - done.
  - by rewrite length_replicate.
  - apply Forall_replicate. unfold JS.new_Float32Array. by rewrite length_replicate.
Qed.

(** ** The outcomes of [flush] *)

Lemma mul_Fin a b : JS.mul (JS.Fin a) (JS.Fin b) = JS.Fin (a * b).
Proof. by destruct a, b. Qed.

Lemma frameSize_pos p :
  0 < Player.frameSize p →
  0 < Player.frameSamples p ∧ 0 < Player.effective_channels p ∧ (0 < Player.sr p)%N.
Proof.
  unfold Player.frameSize. intros H.
  assert (0 < Player.frameSamples p) as Hfs
    by (destruct (Player.frameSamples p); simpl in H; lia).
  repeat split; [done| |].
  - destruct (Player.effective_channels p); [rewrite Nat.mul_0_r in H|]; lia.
  - unfold Player.frameSamples in Hfs.
    destruct (Player.sr p); [|lia].
    rewrite N.mul_0_l, N.Div0.div_0_l in Hfs. simpl in Hfs. lia.
Qed.

Lemma flush_at_cases clock p :
  flush_at_outcome clock p (Player.flush_at clock p).
Proof.
  unfold Player.flush_at, Player.fullFrames.
  destruct (Player.frameSize p) as [|fs] eqn:Hfs.
  - (* a frame of no samples: the quotient is [Infinity] or [NaN] *)
    replace (WebAudio.createBuffer _ _ _ _) with (@None WebAudio.AudioBuffer).
    + destruct (length (Player.samples p)); simpl; by apply flush_empty_frame.
    + symmetry. apply createBuffer_None. right; left.
      destruct (length (Player.samples p)), (Player.frameSamples p); done.
  - assert (0 < Player.frameSize p) as Hpos by lia.
    destruct (frameSize_pos p Hpos) as (Hsamples & Hch & Hsr).
    unfold JS.floor_div. rewrite <-Hfs.
    destruct (Nat.lt_ge_cases (length (Player.samples p)) (Player.frameSize p)) as [Hlt|Hge].
    + rewrite Nat.div_small by done. simpl. by apply flush_underrun.
    + assert (0 < frames_available p) as Hk
        by (unfold frames_available; apply Nat.div_str_pos; lia).
      destruct (supported p) eqn:Hsupported.
      * pose proof (flush_drain clock p Hpos Hge Hsupported) as Hdrain.
        unfold drained_buffer, supported in *.
        fold (frames_available p).
        destruct (frames_available p) as [|k] eqn:Hframes; [lia|].
        rewrite !mul_Fin. cbn [JS.is_zero JS.to_index].
        assert (0 < Player.frameSamples p * S k) as Hlen by (apply Nat.mul_pos_pos; lia).
        rewrite createBuffer_Some by done.
        erewrite deinterleave_createBuffer by (by apply createBuffer_Some).
        exact Hdrain.
      * pose proof (flush_unsupported clock p Hpos Hge Hsupported) as Hthrow.
        unfold supported in Hsupported.
        fold (frames_available p).
        destruct (frames_available p) as [|k] eqn:Hframes; [lia|].
        rewrite !mul_Fin. cbn [JS.is_zero JS.to_index].
        replace (WebAudio.createBuffer _ _ _ _) with (@None WebAudio.AudioBuffer); [done|].
        symmetry. apply createBuffer_None. by right; right; right.
Qed.

Lemma flush_cases currentTime p :
  flush_outcome currentTime p (Player.flush currentTime p).
Proof. apply flush_at_cases. Qed.

(** ** The virtual clock *)

Lemma clamp_ge_now startTime currentTime : (currentTime <= clamp startTime currentTime)%Q.
Proof. unfold clamp. destruct (Qlt_le_dec startTime currentTime); [apply Qle_refl|done]. Qed.

Lemma clamp_ge_start startTime currentTime : (startTime <= clamp startTime currentTime)%Q.
Proof.
  unfold clamp. destruct (Qlt_le_dec startTime currentTime); [by apply Qlt_le_weak|apply Qle_refl].
Qed.

Lemma clamp_on_time startTime currentTime :
  (currentTime <= startTime)%Q → clamp startTime currentTime = startTime.
Proof.
  intros Hle. unfold clamp. destruct (Qlt_le_dec startTime currentTime) as [Hlt|]; [|done].
  by destruct (Qlt_not_le _ _ Hlt).
Qed.


Lemma duration_nonneg b : (0 <= WebAudio.duration b)%Q.
Proof.
  unfold WebAudio.duration, Qdiv.
  assert (∀ z, (0 <= z)%Z → (0 <= inject_Z z)%Q) as Hpos
    by (intros z Hz; unfold Qle; simpl; lia).
  apply Qmult_le_0_compat; [|apply Qinv_le_0_compat]; apply Hpos; lia.
Qed.

Lemma flush_startTime currentTime p :
  (Player.startTime p <= Player.startTime (Player.flush currentTime p).2)%Q.
Proof.
  destruct (flush_cases currentTime p); simpl; try apply Qle_refl.
  eapply Qle_trans; [apply (clamp_ge_start _ currentTime)|].
  rewrite <-(Qplus_0_r (clamp _ _)) at 1.
  apply Qplus_le_r, duration_nonneg.
Qed.

Lemma feed_startTime decoder data p :
  Player.startTime (Player.feed decoder data p).2 = Player.startTime p.
Proof.
  unfold Player.feed, Player.buffer_frame.
  repeat (case_match; simpl; try done).
Qed.

Lemma step_startTime_quiet e p :
  Player.is_tick e = false →
  Player.startTime (Player.step e p).2 = Player.startTime p.
Proof. destruct e; simpl; try done. intros _. apply feed_startTime. Qed.

Lemma step_startTime e p :
  (Player.startTime p <= Player.startTime (Player.step e p).2)%Q.
Proof.
  destruct e as [decoder data|currentTime|level|]; simpl; try apply Qle_refl.
  - rewrite feed_startTime. apply Qle_refl.
  - destruct (Player.intervalId p); [|apply Qle_refl].
    pose proof (flush_startTime currentTime p) as Hle.
    by destruct (Player.flush currentTime p) as [[scheduled|e] p'].
Qed.

Lemma run_cons e es p :
  Player.run (e :: es) p
  = (from_option (λ x, [x]) [] (Player.step e p).1 ++ (Player.run es (Player.step e p).2).1,
     (Player.run es (Player.step e p).2).2).
Proof.
  simpl. destruct (Player.step e p) as [s p']. simpl.
  by destruct (Player.run es p') as [ss p''].
Qed.


Lemma run_startTime_quiet es p :
  forallb (negb ∘ Player.is_tick) es = true →
  Player.startTime (Player.run es p).2 = Player.startTime p.
Proof.
  revert p. induction es as [|e es IH]; intros p Hquiet; [done|].
  simpl in Hquiet. apply andb_prop in Hquiet as [He Hes].
  rewrite run_cons. simpl. rewrite IH by done.
  apply step_startTime_quiet. by destruct (Player.is_tick e).
Qed.

Lemma in_sequence_earlier t t' scheduled :
  (t' <= t)%Q → in_sequence t scheduled → in_sequence t' scheduled.
Proof.
  destruct scheduled as [|s scheduled]; [done|].
  intros Hle [Hs Hrest]. split; [by eapply Qle_trans|done].
Qed.

Lemma step_in_sequence e p :
  match (Player.step e p).1 with
  | Some s =>
      (Player.startTime p <= WebAudio.when s)%Q ∧
      Player.startTime (Player.step e p).2
      = (WebAudio.when s + WebAudio.duration (WebAudio.buffer s))%Q
  | None => True
  end.
Proof.
  destruct e as [decoder data|currentTime|level|]; simpl; try done.
  destruct (Player.intervalId p); [|done].
  destruct (flush_cases currentTime p); simpl; try done.
  split; [apply clamp_ge_start|done].
Qed.

(** Over any run of events, the buffers handed to the sink follow one
    another without overlap. *)
Lemma run_in_sequence es p :
  in_sequence (Player.startTime p) (Player.run es p).1.
Proof.
  revert p. induction es as [|e es IH]; intros p; [done|].
  rewrite run_cons. simpl.
  pose proof (step_in_sequence e p) as Hstep.
  pose proof (step_startTime e p) as Hmono.
  specialize (IH (Player.step e p).2).
  destruct (Player.step e p) as [[s|] p1]; simpl in *.
  - destruct Hstep as [Hs Hnext]. split; [done|]. by rewrite <-Hnext.
  - by eapply in_sequence_earlier.
Qed.

(** ** Scheduling: claims C1, C2 and C3 *)

Lemma flush_Some_inv currentTime p scheduled p' :
  Player.flush currentTime p = (Player.Returned (Some scheduled), p') →
  0 < Player.frameSize p ∧
  Player.frameSize p ≤ length (Player.samples p) ∧
  scheduled = {| WebAudio.buffer := drained_buffer p;
                 WebAudio.when := clamp (Player.startTime p) currentTime |} ∧
  p' = Player.set_samples
         (drop (frames_available p * Player.frameSize p) (Player.samples p))
         (Player.set_startTime
            (clamp (Player.startTime p) currentTime + WebAudio.duration (drained_buffer p))
            p).
Proof.
  intros Hflush. pose proof (flush_cases currentTime p) as Hcases.
  rewrite Hflush in Hcases. by inversion Hcases.
Qed.

Lemma flush_at_Some_inv clock p scheduled p' :
  Player.flush_at clock p = (Player.Returned (Some scheduled), p') →
  0 < Player.frameSize p ∧
  Player.frameSize p ≤ length (Player.samples p) ∧
  supported p = true ∧
  scheduled = {| WebAudio.buffer := drained_buffer p;
                 WebAudio.when := clamp_at (Player.startTime p) clock |} ∧
  p' = Player.set_samples
         (drop (frames_available p * Player.frameSize p) (Player.samples p))
         (Player.set_startTime
            (clamp_at (Player.startTime p) clock + WebAudio.duration (drained_buffer p))
            p).
Proof.
  intros Hflush. pose proof (flush_at_cases clock p) as Hcases.
  rewrite Hflush in Hcases. by inversion Hcases.
Qed.











(** C3 (as the code has it).  When a frame is not empty, that is when
    [frameSize] is at least 1: [fullFrames] is the quotient of the backlog
    length by the frame size, which is 0 exactly when the backlog is
    shorter than one frame; if it is 0, [flush] returns without
    scheduling anything and leaves the player as it was, whatever the
    sink accepts; otherwise, if the sink accepts a buffer of the
    effective channel count, length and sample rate, [flush] schedules a
    buffer and removes the first [fullFrames * frameSize] samples of the
    backlog, which leaves fewer samples than one frame; and if the sink
    does not accept it, [flush] raises the [NotSupportedError] of
    [createBuffer] and leaves the player, backlog included, as it was. *)
Theorem flush_whole_frames clock p :
  0 < Player.frameSize p →
  Player.fullFrames p = JS.Fin (frames_available p) ∧
  (frames_available p = 0 ↔ length (Player.samples p) < Player.frameSize p) ∧
  (frames_available p = 0 →
   Player.flush_at clock p = (Player.Returned None, p)) ∧
  (0 < frames_available p → supported p = true →
   ∃ scheduled p',
     Player.flush_at clock p = (Player.Returned (Some scheduled), p') ∧
     Player.samples p
     = take (frames_available p * Player.frameSize p) (Player.samples p)
       ++ Player.samples p' ∧
     length (Player.samples p)
     = frames_available p * Player.frameSize p + length (Player.samples p') ∧
     length (Player.samples p') < Player.frameSize p) ∧
  (0 < frames_available p → supported p = false →
   Player.flush_at clock p = (Player.Threw JS.NotSupportedError, p)).
Proof.
  intros Hpos. unfold frames_available.
  pose proof (Nat.div_mod_eq (length (Player.samples p)) (Player.frameSize p)) as Hdiv.
  pose proof (Nat.mod_upper_bound (length (Player.samples p)) (Player.frameSize p)) as Hmod.
  assert (length (Player.samples p) < Player.frameSize p →
          length (Player.samples p) / Player.frameSize p = 0) as Hsmall
    by (intros; by apply Nat.div_small).
  assert (Player.frameSize p ≤ length (Player.samples p) →
          0 < length (Player.samples p) / Player.frameSize p) as Hlarge
    by (intros; apply Nat.div_str_pos; lia).
  split; [|split; [|split; [|split]]].
  - unfold Player.fullFrames, JS.floor_div. destruct (Player.frameSize p); [lia|done].
  - rewrite Nat.div_small_iff; lia.
  - intros Hzero.
    destruct (flush_at_cases clock p) as [?|? ?|_ Hge _|_ Hge _]; [lia|done| |];
      specialize (Hlarge Hge); lia.
  - intros Hsome Hsupported.
    destruct (flush_at_cases clock p) as [?|_ Hlt|_ _ Hno|_ Hge _]; [lia| | |].
    + specialize (Hsmall Hlt). lia.
    + congruence.
    + eexists _, _. split; [done|]. simpl. unfold frames_available.
      rewrite take_drop, length_drop. split; [done|]. lia.
  - intros Hsome Hunsupported.
    destruct (flush_at_cases clock p) as [?|_ Hlt|_ _ _|_ _ Hyes]; [lia| |done|].
    + specialize (Hsmall Hlt). lia.
    + congruence.
Qed.

Lemma flush_whole_frames_witness :
  0 < Player.frameSize fed_a ∧
  (∃ scheduled p',
     Player.flush_at (WebAudio.steady 0) fed_a = (Player.Returned (Some scheduled), p') ∧
     Player.samples fed_a
     = take (frames_available fed_a * Player.frameSize fed_a) (Player.samples fed_a)
       ++ Player.samples p' ∧
     length (Player.samples fed_a)
     = frames_available fed_a * Player.frameSize fed_a + length (Player.samples p') ∧
     length (Player.samples p') < Player.frameSize fed_a) ∧
  Player.flush_at (WebAudio.steady 0) fed_a_unsupported
  = (Player.Threw JS.NotSupportedError, fed_a_unsupported).
Proof.
  assert (0 < Player.frameSize fed_a) as Hpos by (vm_compute; lia).
  assert (0 < Player.frameSize fed_a_unsupported) as Hpos' by (vm_compute; lia).
  split; [exact Hpos|]. split.
  - apply (flush_whole_frames (WebAudio.steady 0) fed_a Hpos); [vm_compute; lia|reflexivity].
  - apply (flush_whole_frames (WebAudio.steady 0) fed_a_unsupported Hpos');
      [vm_compute; lia|reflexivity].
Defined.

(** C3 (as stated) fails for a frame of no samples.  With a flush period
    of 0 ms the quotient [fullFrames] is [NaN], not 0; [flush] then asks
    the sink for a buffer of no frames, which raises, and nothing is
    removed from the backlog. *)
Lemma flush_empty_frame_raises :
  Player.fullFrames (Player.new period_0 0) = JS.NotANumber ∧
  Player.flush 0 (Player.new period_0 0)
  = (Player.Threw JS.NotSupportedError, Player.new period_0 0) ∧
  ¬ (length (Player.samples (Player.flush 0 (Player.new period_0 0)).2)
     < Player.frameSize (Player.new period_0 0)).
Proof.
  split; [|split]; vm_compute; [reflexivity|reflexivity|lia].
Qed.

(** ** Ingest: claims C4, C8 and C10 *)

Lemma isTypedArray_decoded decoder data :
  Player.isTypedArray data = false → decoded decoder data = None.
Proof. by destruct data as [|[?|] ? [?|]]. Qed.

Lemma feed_ignored decoder data p :
  Player.isTypedArray data = false → Player.feed decoder data p = (JS.Normal, p).
Proof. intros Hdata. unfold Player.feed. by rewrite Hdata. Qed.

Lemma feed_decoded decoder data p frame :
  decoded decoder data = Some frame →
  Player.feed decoder data p = Player.buffer_frame frame p.
Proof.
  unfold decoded, Player.feed.
  destruct data as [|[byteLength|] byteOffset [bytes|]]; try done.
  destruct (Decoder.ready decoder); [|done]. simpl.
  destruct (JS.new_Uint8Array bytes byteOffset byteLength) as [view|]; [|done].
  simpl. by intros ->.
Qed.

Lemma feed_not_decoded decoder data p :
  decoded decoder data = None → (Player.feed decoder data p).2 = p.
Proof.
  unfold decoded, Player.feed.
  destruct data as [|[byteLength|] byteOffset [bytes|]]; try done.
  destruct (Decoder.ready decoder); [|done]. simpl.
  destruct (JS.new_Uint8Array bytes byteOffset byteLength) as [view|]; [|done].
  simpl. by intros ->.
Qed.

(** The player once [feed] has looked at the format of a frame. *)
Lemma buffer_frame_samples frame p first :
  Decoder.channelData frame !! 0 = Some first →
  (Player.buffer_frame frame p).1 = JS.Normal ∧
  Player.samples (Player.buffer_frame frame p).2
  = Player.samples p
    ++ interleaved (Decoder.channelData frame)
         (length (Decoder.channelData frame)) (length first).
Proof.
  intros Hfirst. unfold Player.buffer_frame.
  rewrite (interleave_Some _ _ Hfirst).
  by destruct (Player._decodedSampleRate p).
Qed.

Lemma block_first ch n cd : 0 < ch → block ch n cd → ∃ first, cd !! 0 = Some first ∧ length first = n.
Proof.
  intros Hch [Hlen Hall]. destruct cd as [|first cd]; simpl in *; [lia|].
  exists first. split; [done|]. by inversion Hall.
Qed.

Lemma block_lookup ch n cd c i :
  block ch n cd → c < ch → i < n →
  ∃ chan x, cd !! c = Some chan ∧ chan !! i = Some x ∧ Player.channel_sample cd c i = x.
Proof.
  intros [Hlen Hall] Hc Hi.
  destruct (lookup_lt_is_Some_2 cd c) as [chan Hchan]; [lia|].
  assert (length chan = n) as Hn by (by eapply (proj1 (Forall_lookup _ _) Hall)).
  destruct (lookup_lt_is_Some_2 chan i) as [x Hx]; [lia|].
  exists chan, x. eauto using channel_sample_lookup.
Qed.

(** C4.  When the decoder answers a block of [ch] channels of [n] samples
    each, [feed] returns normally and appends [n * ch] samples to the
    backlog, and the appended sample at index [i * ch + c] is sample [i] of
    channel [c]. *)
Theorem feed_interleaves decoder data p frame ch n :
  decoded decoder data = Some frame →
  0 < ch →
  block ch n (Decoder.channelData frame) →
  ∃ inter p',
    Player.feed decoder data p = (JS.Normal, p') ∧
    Player.samples p' = Player.samples p ++ inter ∧
    length inter = n * ch ∧
    ∀ c i, c < ch → i < n →
      ∃ chan x, Decoder.channelData frame !! c = Some chan ∧
                chan !! i = Some x ∧
                inter !! (i * ch + c) = Some x.
Proof.
  intros Hdecoded Hch Hblock.
  destruct (block_first _ _ _ Hch Hblock) as (first & Hfirst & Hn).
  destruct (buffer_frame_samples frame p first Hfirst) as [Hnormal Hsamples].
  rewrite (proj1 Hblock), Hn in Hsamples.
  exists (interleaved (Decoder.channelData frame) ch n), (Player.buffer_frame frame p).2.
  rewrite (feed_decoded _ _ _ _ Hdecoded).
  split; [by destruct (Player.buffer_frame frame p); simplify_eq/=|].
  split; [done|]. split; [apply length_interleaved|].
  intros c i Hc Hi.
  destruct (block_lookup _ _ _ c i Hblock Hc Hi) as (chan & x & Hchan & Hx & Hsample).
  exists chan, x. by rewrite lookup_interleaved, Hsample.
Qed.

Lemma feed_interleaves_witness :
  ∃ inter p',
    Player.feed (answering frame_a) packet (Player.new stereo_8kHz 0) = (JS.Normal, p') ∧
    Player.samples p' = Player.samples (Player.new stereo_8kHz 0) ++ inter ∧
    length inter = 8 * 2 ∧
    ∀ c i, c < 2 → i < 8 →
      ∃ chan x, Decoder.channelData frame_a !! c = Some chan ∧
                chan !! i = Some x ∧
                inter !! (i * 2 + c) = Some x.
Proof.
  apply (feed_interleaves (answering frame_a) packet (Player.new stereo_8kHz 0) frame_a 2 8).
  - reflexivity.
  - lia.
  - split; [reflexivity|]. repeat constructor.
Defined.

(** C8 (as the code has it).  A value that fails the test of
    [isTypedArray] (a falsy value, a [byteLength] that is not a number, a
    [buffer] that is not an [ArrayBuffer]) is ignored: [feed] returns
    normally and the player is as it was.  The test does not compare
    [byteLength] with the buffer: a value that passes it with a view that
    does not fit in its buffer makes [feed] raise a [RangeError] once the
    decoder is ready, and the player is as it was then too. *)
Theorem feed_ignores_non_views decoder data p :
  (Player.isTypedArray data = false →
   Player.feed decoder data p = (JS.Normal, p)) ∧
  (∀ byteLength byteOffset bytes,
     data = JS.Object (Some byteLength) byteOffset (JS.ArrayBuffer bytes) →
     JS.new_Uint8Array bytes byteOffset byteLength = None →
     Decoder.ready decoder = true →
     Player.isTypedArray data = true ∧
     Player.feed decoder data p = (JS.Throw JS.RangeError, p)).
Proof.
  split; [apply feed_ignored|].
  intros byteLength byteOffset bytes -> Hview Hready.
  unfold Player.feed. simpl. by rewrite Hready, Hview.
Qed.

Lemma feed_ignores_non_views_witness :
  Player.feed (answering frame_a) (JS.Object None (Some 0%Z) (JS.ArrayBuffer [])) fed_a
  = (JS.Normal, fed_a).
Proof.
  apply (proj1 (feed_ignores_non_views (answering frame_a)
                  (JS.Object None (Some 0%Z) (JS.ArrayBuffer [])) fed_a)).
  reflexivity.
Defined.

(** C8 (as stated) fails for a value whose [byteLength] is larger than its
    buffer: it passes [isTypedArray], and [feed] raises the [RangeError]
    of the [Uint8Array] constructor. *)
Lemma feed_overlong_raises :
  Player.isTypedArray overlong = true ∧
  Player.feed (answering frame_a) overlong fed_a = (JS.Throw JS.RangeError, fed_a).
Proof. split; reflexivity. Qed.




(** ** The stream format: claim C7 *)

Lemma buffer_frame_latch frame p :
  Player._decodedSampleRate p = None →
  Player._decodedSampleRate (Player.buffer_frame frame p).2 = Some (Decoder.sampleRate frame) ∧
  Player._decodedChannels (Player.buffer_frame frame p).2
  = Some (length (Decoder.channelData frame)).
Proof.
  intros Hnone. unfold Player.buffer_frame. rewrite Hnone.
  by destruct (Player.interleave (Decoder.channelData frame)).
Qed.

Lemma buffer_frame_latched frame p rate :
  Player._decodedSampleRate p = Some rate →
  Player._decodedSampleRate (Player.buffer_frame frame p).2 = Some rate ∧
  Player._decodedChannels (Player.buffer_frame frame p).2 = Player._decodedChannels p.
Proof.
  intros Hsome. unfold Player.buffer_frame. rewrite Hsome.
  by destruct (Player.interleave (Decoder.channelData frame)).
Qed.

Lemma feed_latched decoder data p rate :
  Player._decodedSampleRate p = Some rate →
  Player._decodedSampleRate (Player.feed decoder data p).2 = Some rate ∧
  Player._decodedChannels (Player.feed decoder data p).2 = Player._decodedChannels p.
Proof.
  intros Hsome. destruct (decoded decoder data) as [frame|] eqn:Hdecoded.
  - rewrite (feed_decoded _ _ _ _ Hdecoded). by apply buffer_frame_latched.
  - by rewrite (feed_not_decoded _ _ _ Hdecoded).
Qed.

Lemma flush_format currentTime p :
  Player._decodedSampleRate (Player.flush currentTime p).2 = Player._decodedSampleRate p ∧
  Player._decodedChannels (Player.flush currentTime p).2 = Player._decodedChannels p.
Proof. by destruct (flush_cases currentTime p). Qed.

Lemma step_latched e p rate :
  Player._decodedSampleRate p = Some rate →
  Player._decodedSampleRate (Player.step e p).2 = Some rate ∧
  Player._decodedChannels (Player.step e p).2 = Player._decodedChannels p.
Proof.
  intros Hsome. destruct e as [decoder data|currentTime|level|]; simpl; try done.
  - by apply feed_latched.
  - destruct (Player.intervalId p); [|done].
    pose proof (flush_format currentTime p) as [Hrate Hch].
    destruct (Player.flush currentTime p) as [[scheduled|e] p']; simpl in *;
      by rewrite Hrate, Hch.
Qed.

Lemma run_latched es p rate :
  Player._decodedSampleRate p = Some rate →
  Player._decodedSampleRate (Player.run es p).2 = Some rate ∧
  Player._decodedChannels (Player.run es p).2 = Player._decodedChannels p.
Proof.
  revert p. induction es as [|e es IH]; intros p Hsome; [done|].
  rewrite run_cons. simpl.
  destruct (step_latched e p rate Hsome) as [Hrate Hch].
  destruct (IH _ Hrate) as [Hrate' Hch'].
  by rewrite Hrate', Hch'.
Qed.

(** What [flush] does, from the sample rate and the channel count that
    it computes with. *)
Lemma flush_with_format clock p rate ch :
  Player.sr p = rate →
  Player.effective_channels p = ch →
  let fs := N.to_nat (rate * Player.flushingTime (Player.option p) / 1000) in
  0 < fs * ch →
  (length (Player.samples p) < fs * ch →
   Player.flush_at clock p = (Player.Returned None, p)) ∧
  (fs * ch ≤ length (Player.samples p) →
   WebAudio.supports (Player.sink p) ch
     (fs * (length (Player.samples p) / (fs * ch))) rate = true →
   ∃ scheduled p',
     Player.flush_at clock p = (Player.Returned (Some scheduled), p') ∧
     WebAudio.sampleRate (WebAudio.buffer scheduled) = rate ∧
     WebAudio.numberOfChannels (WebAudio.buffer scheduled) = ch ∧
     length (WebAudio.channels (WebAudio.buffer scheduled)) = ch ∧
     WebAudio.length (WebAudio.buffer scheduled)
     = fs * (length (Player.samples p) / (fs * ch))).
Proof.
  intros Hrate Hch fs Hpos.
  assert (Player.frameSamples p = fs) as Hfs
    by (unfold Player.frameSamples, fs; by rewrite Hrate).
  assert (Player.frameSize p = fs * ch) as Hsize
    by (unfold Player.frameSize; by rewrite Hfs, Hch).
  split.
  - intros Hlt.
    destruct (flush_at_cases clock p) as [?|? ?|_ ? _|_ ? _]; (done || lia).
  - intros Hge Hsupports.
    assert (supported p = true) as Hsupported
      by (unfold supported, frames_available; by rewrite Hsize, Hfs, Hch, Hrate).
    destruct (flush_at_cases clock p) as [?|? ?|_ _ ?|_ _ _]; [lia|lia|congruence|].
    eexists _, _. split; [done|]. simpl.
    unfold frames_available. rewrite Hsize, Hfs, length_planar. done.
Qed.

(** C7 (as the code has it).  The decoded format is unset in a new
    player.  The first call of [feed] that gets a frame from the decoder
    sets it to the frame's sample rate and number of channels; a call
    that gets no frame leaves the player as it was.  Once set, no run of
    events changes it.  [flush] computes with the decoded sample rate when
    it is set and not 0, and with the decoded channel count when it is
    set and not 0: the frame it waits for and the buffer it schedules
    have that rate and that many channels.  A decoded value of 0 counts
    as unset: [flush] then computes with the configured value, as it does
    when nothing has been decoded. *)
Theorem format_latched_once :
  (∀ sink options currentTime,
     Player._decodedSampleRate (Player.new_on sink options currentTime) = None ∧
     Player._decodedChannels (Player.new_on sink options currentTime) = None) ∧
  (∀ decoder data p frame,
     decoded decoder data = Some frame →
     Player._decodedSampleRate p = None →
     Player._decodedSampleRate (Player.feed decoder data p).2
     = Some (Decoder.sampleRate frame) ∧
     Player._decodedChannels (Player.feed decoder data p).2
     = Some (length (Decoder.channelData frame))) ∧
  (∀ decoder data p,
     decoded decoder data = None → (Player.feed decoder data p).2 = p) ∧
  (∀ es p rate,
     Player._decodedSampleRate p = Some rate →
     Player._decodedSampleRate (Player.run es p).2 = Some rate ∧
     Player._decodedChannels (Player.run es p).2 = Player._decodedChannels p) ∧
  (∀ clock p rate ch,
     Player._decodedSampleRate p = Some rate →
     Player._decodedChannels p = Some ch →
     (0 < rate)%N → 0 < ch →
     let fs := N.to_nat (rate * Player.flushingTime (Player.option p) / 1000) in
     0 < fs * ch →
     (length (Player.samples p) < fs * ch →
      Player.flush_at clock p = (Player.Returned None, p)) ∧
     (fs * ch ≤ length (Player.samples p) →
      WebAudio.supports (Player.sink p) ch
        (fs * (length (Player.samples p) / (fs * ch))) rate = true →
      ∃ scheduled p',
        Player.flush_at clock p = (Player.Returned (Some scheduled), p') ∧
        WebAudio.sampleRate (WebAudio.buffer scheduled) = rate ∧
        WebAudio.numberOfChannels (WebAudio.buffer scheduled) = ch ∧
        length (WebAudio.channels (WebAudio.buffer scheduled)) = ch ∧
        WebAudio.length (WebAudio.buffer scheduled)
        = fs * (length (Player.samples p) / (fs * ch)))) ∧
  (∀ clock p scheduled p',
     Player.flush_at clock p = (Player.Returned (Some scheduled), p') →
     (Player._decodedSampleRate p = None ∨ Player._decodedSampleRate p = Some 0%N →
      WebAudio.sampleRate (WebAudio.buffer scheduled)
      = Player.sampleRate (Player.option p)) ∧
     (Player._decodedChannels p = None ∨ Player._decodedChannels p = Some 0 →
      WebAudio.numberOfChannels (WebAudio.buffer scheduled)
      = Player.channels (Player.option p)) ∧
     (∀ rate, Player._decodedSampleRate p = Some rate → (0 < rate)%N →
        WebAudio.sampleRate (WebAudio.buffer scheduled) = rate) ∧
     (∀ ch, Player._decodedChannels p = Some ch → 0 < ch →
        WebAudio.numberOfChannels (WebAudio.buffer scheduled) = ch)).
Proof.
  split; [done|]. split.
  { intros decoder data p frame Hdecoded Hnone.
    rewrite (feed_decoded _ _ _ _ Hdecoded). by apply buffer_frame_latch. }
  split; [apply feed_not_decoded|].
  split; [apply run_latched|].
  split.
  - intros clock p rate ch Hrate Hch Hrate_pos Hch_pos.
    apply flush_with_format.
    + unfold Player.sr, JS.or_else. rewrite Hrate. case_decide; (done || lia).
    + unfold Player.effective_channels, JS.or_else. rewrite Hch. case_decide; (done || lia).
  - intros clock p scheduled p' (_ & _ & _ & -> & _)%flush_at_Some_inv. simpl.
    unfold Player.sr, Player.effective_channels, JS.or_else.
    split; [|split; [|split]].
    + by intros [->| ->].
    + by intros [->| ->].
    + intros rate -> Hpos. case_decide; (done || lia).
    + intros ch -> Hpos. case_decide; (done || lia).
Qed.

Lemma format_latched_once_witness :
  ∃ scheduled p',
    Player.flush_at quantum_later fed_a = (Player.Returned (Some scheduled), p') ∧
    WebAudio.sampleRate (WebAudio.buffer scheduled) = 8000%N ∧
    WebAudio.numberOfChannels (WebAudio.buffer scheduled) = 2 ∧
    length (WebAudio.channels (WebAudio.buffer scheduled)) = 2 ∧
    WebAudio.length (WebAudio.buffer scheduled) = 8.
Proof.
  refine (proj2 (proj1 (proj2 (proj2 (proj2 (proj2 format_latched_once))))
                   quantum_later fed_a 8000%N 2 _ _ _ _ _) _ _).
  - reflexivity.
  - reflexivity.
  - reflexivity.
  - lia.
  - vm_compute. lia.
  - vm_compute. lia.
  - reflexivity.
Defined.

(** C7 (as stated) fails for a decoded value of 0.  After a frame without
    channels the decoded channel count is set, to 0, and stays so when a
    stereo frame follows; [flush] nevertheless computes with the
    configured 2 channels. *)
Lemma latched_zero_channels_unused :
  Player._decodedSampleRate fed_no_channel_then_a = Some 8000%N ∧
  Player._decodedChannels fed_no_channel_then_a = Some 0 ∧
  Player.channels (Player.option fed_no_channel_then_a) = 2 ∧
  ∃ scheduled p',
    Player.flush 0 fed_no_channel_then_a = (Player.Returned (Some scheduled), p') ∧
    WebAudio.numberOfChannels (WebAudio.buffer scheduled) = 2.
Proof.
  do 3 (split; [reflexivity|]).
  eexists _, _. split; [vm_compute; reflexivity|]. reflexivity.
Qed.

(** ** Teardown: claim C9 *)

(** C9.  After [destroy] the timer is stopped, the backlog is empty and
    the sink is closed, and a second [destroy] leaves the player exactly
    as the first one did.  The second [close()] answers a rejected promise
    that nobody looks at; a tick of a stopped timer does nothing. *)
Theorem destroy_idempotent p :
  (Player.destroy (Player.destroy p).2).2 = (Player.destroy p).2 ∧
  Player.intervalId (Player.destroy p).2 = false ∧
  Player.samples (Player.destroy p).2 = [] ∧
  Player.audioCtx (Player.destroy p).2 = WebAudio.Closed ∧
  (Player.destroy (Player.destroy p).2).1 = WebAudio.RejectedInvalidState ∧
  (∀ currentTime,
     Player.step (Player.Tick currentTime) (Player.destroy p).2 = (None, (Player.destroy p).2)).
Proof. done. Qed.

(** ** The two layouts are inverse: claim C6 *)

Lemma planar_interleaved ch n cd :
  block ch n cd → planar (interleaved cd ch n) ch n = cd.
Proof.
  intros Hblock. apply list_eq. intros c.
  destruct (Nat.lt_ge_cases c ch) as [Hc|Hc].
  - rewrite lookup_planar by done.
    destruct (lookup_lt_is_Some_2 cd c) as [chan Hchan]; [by rewrite (proj1 Hblock)|].
    rewrite Hchan. f_equal. apply list_eq. intros i.
    rewrite list_lookup_fmap.
    destruct (Nat.lt_ge_cases i n) as [Hi|Hi].
    + rewrite lookup_seq_lt by done. simpl.
      destruct (block_lookup _ _ _ c i Hblock Hc Hi) as (chan' & x & Hchan' & Hx & Hsample).
      simplify_eq. rewrite Hx. f_equal.
      unfold JS.load. by rewrite (Nat.add_comm c), lookup_interleaved.
    + rewrite lookup_seq_ge by done. simpl. symmetry. apply lookup_ge_None_2.
      assert (length chan = n) as -> by (by eapply (proj1 (Forall_lookup _ _) (proj2 Hblock))).
      done.
  - rewrite !lookup_ge_None_2; [done| |]; [by rewrite (proj1 Hblock)|by rewrite length_planar].
Qed.

Lemma block_planar samples ch n : block ch n (planar samples ch n).
Proof.
  split; [apply length_planar|].
  unfold planar. apply Forall_fmap, Forall_true. intros c. simpl.
  by rewrite length_fmap, length_seq.
Qed.

Lemma interleaved_planar samples ch n :
  length samples = n * ch → interleaved (planar samples ch n) ch n = samples.
Proof.
  intros Hlen. apply list_eq. intros k.
  destruct (Nat.lt_ge_cases k (n * ch)) as [Hk|Hk].
  - assert (0 < ch) as Hch by (destruct ch; lia).
    pose proof (Nat.div_mod_eq k ch) as Hdiv.
    pose proof (Nat.mod_upper_bound k ch ltac:(lia)) as Hmod.
    assert (k / ch < n) as Hi by (apply Nat.Div0.div_lt_upper_bound; lia).
    replace k with (k / ch * ch + k `mod` ch) at 1 by lia.
    rewrite lookup_interleaved by done.
    unfold Player.channel_sample, JS.load. rewrite lookup_planar by done. simpl.
    rewrite list_lookup_fmap, lookup_seq_lt by done. simpl.
    replace (k `mod` ch + k / ch * ch) with k by lia.
    destruct (lookup_lt_is_Some_2 samples k) as [x Hx]; [lia|].
    unfold JS.load. by rewrite Hx.
  - rewrite !lookup_ge_None_2; [done|lia|by rewrite length_interleaved].
Qed.

(** C6.  De-interleaving as [flush] does it inverts interleaving as
    [feed] does it, and the other way round: a block of [ch] channels of
    [n] samples that [feed] has interleaved is what [flush] writes into a
    buffer of [ch] channels of [n] frames; and interleaving the channels
    that [flush] wrote from [n * ch] samples gives those samples back.
    Through the player: a block of whole frames fed into an empty backlog
    is the content of the buffer that the next [flush] schedules. *)
Theorem deinterleave_inverts_interleave :
  (∀ sink ch n cd inter rate b,
     0 < ch → block ch n cd →
     Player.interleave cd = Some inter →
     WebAudio.createBuffer sink ch n rate = Some b →
     WebAudio.channels (Player.deinterleave inter ch n b) = cd) ∧
  (∀ sink ch n samples rate b,
     length samples = n * ch →
     WebAudio.createBuffer sink ch n rate = Some b →
     Player.interleave (WebAudio.channels (Player.deinterleave samples ch n b))
     = Some samples) ∧
  (∀ decoder data p frame k currentTime,
     let p' := (Player.feed decoder data p).2 in
     decoded decoder data = Some frame →
     Player.samples p = [] →
     0 < k → 0 < Player.frameSize p' →
     supported p' = true →
     block (Player.effective_channels p') (Player.frameSamples p' * k)
       (Decoder.channelData frame) →
     ∃ scheduled p'',
       Player.flush currentTime p' = (Player.Returned (Some scheduled), p'') ∧
       WebAudio.channels (WebAudio.buffer scheduled) = Decoder.channelData frame ∧
       Player.samples p'' = []).
Proof.
  split; [|split].
  - intros sink ch n cd inter rate b Hch Hblock Hinter Hb.
    destruct (block_first _ _ _ Hch Hblock) as (first & Hfirst & Hn).
    rewrite (interleave_Some _ _ Hfirst), (proj1 Hblock), Hn in Hinter.
    injection Hinter as <-.
    rewrite (deinterleave_createBuffer _ _ _ _ _ _ Hb). simpl.
    by apply planar_interleaved.
  - intros sink ch n samples rate b Hlen Hb.
    rewrite (deinterleave_createBuffer _ _ _ _ _ _ Hb). simpl.
    destruct (createBuffer_inv _ _ _ _ _ Hb) as (Hch & _).
    destruct (block_first _ _ _ Hch (block_planar samples ch n)) as (first & Hfirst & Hn).
    rewrite (interleave_Some _ _ Hfirst), length_planar, Hn.
    by rewrite interleaved_planar.
  - intros decoder data p frame k currentTime p' Hdecoded Hempty Hk Hpos Hsupported Hblock.
    destruct (frameSize_pos p' Hpos) as (Hfs & Hch & _).
    destruct (block_first _ _ _ Hch Hblock) as (first & Hfirst & Hn).
    assert (Player.samples p'
            = interleaved (Decoder.channelData frame) (Player.effective_channels p')
                (Player.frameSamples p' * k)) as Hsamples.
    { subst p'. rewrite (feed_decoded _ _ _ _ Hdecoded).
      destruct (buffer_frame_samples frame p first Hfirst) as [_ ->].
      rewrite Hempty. simpl. rewrite <-(feed_decoded _ _ _ _ Hdecoded).
      by rewrite (proj1 Hblock), Hn. }
    assert (length (Player.samples p') = k * Player.frameSize p') as Hlen.
    { rewrite Hsamples, length_interleaved. unfold Player.frameSize. lia. }
    assert (frames_available p' = k) as Hframes.
    { unfold frames_available. rewrite Hlen. apply Nat.div_mul. lia. }
    destruct (flush_cases currentTime p') as [?|? Hlt|_ _ ?|_ Hge _]; [lia|nia|congruence|].
    eexists _, _. split; [done|]. simpl. rewrite Hframes. split.
    + rewrite Hsamples. by apply planar_interleaved.
    + apply drop_ge. lia.
Qed.

Lemma deinterleave_inverts_interleave_witness :
  ∃ scheduled p'',
    Player.flush 0 fed_a = (Player.Returned (Some scheduled), p'') ∧
    WebAudio.channels (WebAudio.buffer scheduled) = Decoder.channelData frame_a ∧
    Player.samples p'' = [].
Proof.
  refine (proj2 (proj2 deinterleave_inverts_interleave)
            (answering frame_a) packet (Player.new stereo_8kHz 0) frame_a 1 0%Q _ _ _ _ _ _).
  - reflexivity.
  - reflexivity.
  - lia.
  - vm_compute. lia.
  - reflexivity.
  - split; [reflexivity|]. vm_compute. repeat constructor.
Defined.

(** ** Chunking: claim C5 *)

Lemma block_length_eq ch n cd : 0 < ch → block ch n cd → block_length cd = n.
Proof.
  intros Hch Hblock. destruct (block_first _ _ _ Hch Hblock) as (first & Hfirst & Hn).
  unfold block_length. by rewrite Hfirst.
Qed.

Lemma block_zip ch n1 n2 a b :
  block ch n1 a → block ch n2 b → block ch (n1 + n2) (zip_with (++) a b).
Proof.
  intros [Hla Ha] [Hlb Hb]. split.
  - rewrite length_zip_with_l_eq; congruence.
  - apply Forall_lookup. intros c chan (x & y & -> & Hx & Hy)%lookup_zip_with_Some.
    rewrite length_app.
    rewrite (proj1 (Forall_lookup _ _) Ha c x Hx), (proj1 (Forall_lookup _ _) Hb c y Hy).
    done.
Qed.

Lemma channel_sample_zip ch n1 n2 a b c i :
  block ch n1 a → block ch n2 b → c < ch →
  Player.channel_sample (zip_with (++) a b) c i
  = if decide (i < n1) then Player.channel_sample a c i
    else Player.channel_sample b c (i - n1).
Proof.
  intros [Hla Ha] [Hlb Hb] Hc.
  destruct (lookup_lt_is_Some_2 a c) as [x Hx]; [lia|].
  destruct (lookup_lt_is_Some_2 b c) as [y Hy]; [lia|].
  pose proof (proj1 (Forall_lookup _ _) Ha c x Hx) as Hlx. simpl in Hlx.
  unfold Player.channel_sample, JS.load.
  rewrite lookup_zip_with, Hx, Hy. simpl.
  case_decide.
  - by rewrite lookup_app_l by lia.
  - rewrite lookup_app_r by lia. by rewrite Hlx.
Qed.

Lemma interleaved_zip ch n1 n2 a b :
  block ch n1 a → block ch n2 b →
  interleaved (zip_with (++) a b) ch (n1 + n2)
  = interleaved a ch n1 ++ interleaved b ch n2.
Proof.
  intros Ha Hb. apply list_eq. intros k.
  destruct (Nat.lt_ge_cases k ((n1 + n2) * ch)) as [Hk|Hk].
  - assert (0 < ch) as Hch by (destruct ch; lia).
    pose proof (Nat.div_mod_eq k ch) as Hdiv.
    pose proof (Nat.mod_upper_bound k ch ltac:(lia)) as Hmod.
    assert (k / ch < n1 + n2) as Hi by (apply Nat.Div0.div_lt_upper_bound; lia).
    replace k with (k / ch * ch + k `mod` ch) at 1 by lia.
    rewrite lookup_interleaved by done.
    rewrite (channel_sample_zip ch n1 n2) by done.
    case_decide as Hrow.
    + rewrite lookup_app_l by (rewrite length_interleaved; nia).
      replace k with (k / ch * ch + k `mod` ch) at 3 by lia.
      by rewrite lookup_interleaved.
    + rewrite lookup_app_r by (rewrite length_interleaved; nia).
      rewrite length_interleaved.
      replace (k - n1 * ch) with ((k / ch - n1) * ch + k `mod` ch) by nia.
      by rewrite lookup_interleaved by lia.
  - rewrite !lookup_ge_None_2; [done| |by rewrite length_interleaved].
    rewrite length_app, !length_interleaved. lia.
Qed.

Lemma block_concat ch blocks :
  0 < ch →
  Forall (λ cd, ∃ n, block ch n cd) blocks →
  block ch (sum_list (block_length <$> blocks)) (concat_blocks ch blocks).
Proof.
  intros Hch. induction 1 as [|cd blocks [n Hcd] _ IH]; simpl.
  - split; [by rewrite length_replicate|]. by apply Forall_replicate.
  - rewrite (block_length_eq _ _ _ Hch Hcd). by apply block_zip.
Qed.

(** The backlog after a run of calls of [feed] that each get a block. *)
Lemma run_feeds ch calls frames p :
  0 < ch →
  Forall2 (λ call frame, decoded call.1 call.2 = Some frame) calls frames →
  Forall (λ frame, ∃ n, block ch n (Decoder.channelData frame)) frames →
  Player.samples (Player.run (feeds calls) p).2
  = Player.samples p
    ++ interleaved (concat_blocks ch (Decoder.channelData <$> frames)) ch
         (sum_list (block_length <$> (Decoder.channelData <$> frames))).
Proof.
  intros Hch Hcalls. revert p.
  induction Hcalls as [|call frame calls frames Hdecoded _ IH]; intros p Hblocks.
  - simpl. replace (interleaved _ _ _) with (@nil JS.sample); [by rewrite (right_id_L [] (++))|].
    symmetry. apply nil_length_inv, length_interleaved.
  - apply Forall_cons in Hblocks as [[n Hblock] Hblocks].
    unfold feeds. rewrite fmap_cons, run_cons. simpl. fold (feeds calls).
    rewrite IH by done.
    destruct (block_first _ _ _ Hch Hblock) as (first & Hfirst & Hn).
    rewrite (feed_decoded _ _ _ _ Hdecoded).
    destruct (buffer_frame_samples frame p first Hfirst) as [_ ->].
    rewrite (proj1 Hblock), Hn, (block_length_eq _ _ _ Hch Hblock).
    rewrite (interleaved_zip ch n _ (Decoder.channelData frame)); [by rewrite (assoc_L (++))|done|].
    apply block_concat; [done|]. by apply Forall_fmap.
Qed.

(** C5.  However a stream of blocks of [ch] channels is cut into calls of
    [feed], the backlog ends as if the blocks, put end to end, had been
    fed as one block: it is the backlog before, followed by the
    interleaving of that one block.  Two ways of cutting the same stream
    therefore end with the same backlog. *)
Theorem chunking_invariance ch calls frames rate p :
  0 < ch →
  Forall2 (λ call frame, decoded call.1 call.2 = Some frame) calls frames →
  Forall (λ frame, ∃ n, block ch n (Decoder.channelData frame)) frames →
  let whole := {| Decoder.channelData := concat_blocks ch (Decoder.channelData <$> frames);
                  Decoder.sampleRate := rate |} in
  (∃ inter,
     Player.interleave (Decoder.channelData whole) = Some inter ∧
     Player.samples (Player.run (feeds calls) p).2 = Player.samples p ++ inter) ∧
  (∀ decoder data,
     decoded decoder data = Some whole →
     Player.samples (Player.run (feeds calls) p).2
     = Player.samples (Player.feed decoder data p).2) ∧
  (∀ calls' frames',
     Forall2 (λ call frame, decoded call.1 call.2 = Some frame) calls' frames' →
     Forall (λ frame, ∃ n, block ch n (Decoder.channelData frame)) frames' →
     concat_blocks ch (Decoder.channelData <$> frames')
     = concat_blocks ch (Decoder.channelData <$> frames) →
     Player.samples (Player.run (feeds calls') p).2
     = Player.samples (Player.run (feeds calls) p).2).
Proof.
  intros Hch Hcalls Hblocks whole.
  assert (block ch (sum_list (block_length <$> (Decoder.channelData <$> frames)))
            (Decoder.channelData whole)) as Hwhole
    by (apply block_concat; [done|]; by apply Forall_fmap).
  destruct (block_first _ _ _ Hch Hwhole) as (first & Hfirst & Hn).
  pose proof (interleave_Some _ _ Hfirst) as Hinter.
  rewrite (proj1 Hwhole), Hn in Hinter.
  split; [|split].
  - eexists. split; [exact Hinter|]. by apply run_feeds.
  - intros decoder data Hdecoded.
    rewrite (feed_decoded _ _ _ _ Hdecoded).
    destruct (buffer_frame_samples whole p first Hfirst) as [_ ->].
    rewrite (proj1 Hwhole), Hn. by apply run_feeds.
  - intros calls' frames' Hcalls' Hblocks' Hsame.
    rewrite (run_feeds ch calls' frames'), (run_feeds ch calls frames) by done.
    rewrite Hsame. do 2 f_equal.
    assert (block ch (sum_list (block_length <$> (Decoder.channelData <$> frames')))
              (concat_blocks ch (Decoder.channelData <$> frames'))) as Hwhole'
      by (apply block_concat; [done|]; by apply Forall_fmap).
    rewrite Hsame in Hwhole'.
    by rewrite <-(block_length_eq _ _ _ Hch Hwhole'), <-(block_length_eq _ _ _ Hch Hwhole).
Qed.

Lemma chunking_invariance_witness :
  ∃ inter,
    Player.interleave
      (concat_blocks 2 (Decoder.channelData <$> [frame_a; frame_b])) = Some inter ∧
    Player.samples
      (Player.run (feeds [(answering frame_a, packet); (answering frame_b, packet)])
         (Player.new stereo_8kHz 0)).2
    = Player.samples (Player.new stereo_8kHz 0) ++ inter.
Proof.
  refine (proj1 (chunking_invariance 2
                   [(answering frame_a, packet); (answering frame_b, packet)]
                   [frame_a; frame_b] 8000%N (Player.new stereo_8kHz 0) _ _ _)).
  - lia.
  - repeat constructor.
  - repeat constructor; exists 8; (split; [reflexivity|repeat constructor]).
Defined.

(** ** The default stream, run *)

(** With 10 ms buffered, a tick finds no complete frame and does nothing;
    with 20 ms buffered, it schedules one buffer of 960 frames at the
    sink's current time, moves the virtual clock to its end and empties
    the backlog. *)
Example default_stream_scenario :
  length (Player.samples fed_10ms) = 960 ∧
  Player.frameSize fed_10ms = 1920 ∧
  Player.flush (1 # 50) fed_10ms = (Player.Returned None, fed_10ms) ∧
  ∃ scheduled p',
    Player.flush (1 # 50) fed_20ms = (Player.Returned (Some scheduled), p') ∧
    WebAudio.length (WebAudio.buffer scheduled) = 960 ∧
    WebAudio.channels (WebAudio.buffer scheduled)
    = [replicate 960 0.5%float; replicate 960 (-0.5)%float] ∧
    WebAudio.when scheduled = 1 # 50 ∧
    (Player.startTime p' == 1 # 25)%Q ∧
    Player.samples p' = [].
Proof.
  split; [by vm_compute|]. split; [by vm_compute|]. split; [by vm_compute|].
  eexists _, _. split; [vm_compute; reflexivity|].
  by vm_compute.
Qed.

(** * Further properties *)

(** ** The schedule of a whole run *)

Lemma step_quiet_startTime e p :
  (Player.step e p).1 = None →
  Player.startTime (Player.step e p).2 = Player.startTime p.
Proof.
  destruct e as [decoder data|currentTime|level|]; simpl; try done.
  - intros _. apply feed_startTime.
  - destruct (Player.intervalId p); [|done].
    by destruct (flush_cases currentTime p).
Qed.

(** X1.  Over any run of events, the buffers handed to the sink follow
    one another: none starts before the virtual clock the run began with,
    and each starts at or after the end of the one before it.  The
    virtual clock at the end of the run is the end of the last buffer
    scheduled, and is untouched when the run schedules nothing. *)
Theorem schedule_in_sequence es p :
  in_sequence (Player.startTime p) (Player.run es p).1 ∧
  Player.startTime (Player.run es p).2 = last_end (Player.startTime p) (Player.run es p).1.
Proof.
  split; [apply run_in_sequence|].
  revert p. induction es as [|e es IH]; intros p; [done|].
  rewrite run_cons. simpl. rewrite IH.
  pose proof (step_in_sequence e p) as Hstep.
  pose proof (step_quiet_startTime e p) as Hquiet.
  destruct (Player.step e p) as [[s|] p1]; simpl in *.
  - destruct Hstep as [_ ->]. done.
  - by rewrite Hquiet.
Qed.

(** ** No sample is lost, repeated or reordered *)

Lemma planar_take samples ch n :
  planar samples ch n = planar (take (n * ch) samples) ch n.
Proof.
  unfold planar. apply list_fmap_ext. intros j c [-> Hc]%lookup_seq. simpl.
  apply list_fmap_ext. intros j' i [-> Hi]%lookup_seq. simpl.
  unfold JS.load. by rewrite lookup_take_lt by nia.
Qed.

Lemma interleaved_planar_take samples ch n :
  n * ch ≤ length samples →
  interleaved (planar samples ch n) ch n = take (n * ch) samples.
Proof.
  intros Hlen. rewrite planar_take.
  apply interleaved_planar. by rewrite length_take_le.
Qed.

(** The buffer that [flush] builds holds the front of the backlog. *)
Lemma played_drained (start : Q) p :
  0 < Player.frameSize p →
  Player.frameSize p ≤ length (Player.samples p) →
  played {| WebAudio.buffer := drained_buffer p; WebAudio.when := start |}
  = take (frames_available p * Player.frameSize p) (Player.samples p).
Proof.
  intros Hpos Hge. unfold played, drained_buffer. simpl.
  destruct (frameSize_pos p Hpos) as (_ & Hch & _).
  set (n := Player.frameSamples p * frames_available p).
  destruct (block_first _ _ _ Hch
              (block_planar (Player.samples p) (Player.effective_channels p) n))
    as (first & Hfirst & Hn).
  rewrite (interleave_Some _ _ Hfirst), length_planar, Hn. simpl.
  assert (n * Player.effective_channels p = frames_available p * Player.frameSize p)
    as Heq by (unfold n, Player.frameSize; lia).
  rewrite interleaved_planar_take; [by rewrite Heq|].
  rewrite Heq. unfold frames_available.
  pose proof (Nat.div_mod_eq (length (Player.samples p)) (Player.frameSize p)). lia.
Qed.

Lemma step_conserves e p :
  is_destroy e = false →
  Player.samples p ++ ingested e
  = from_option played [] (Player.step e p).1 ++ Player.samples (Player.step e p).2.
Proof.
  destruct e as [decoder data|currentTime|level|]; simpl; try done; intros _.
  - destruct (decoded decoder data) as [frame|] eqn:Hdecoded; simpl.
    + rewrite (feed_decoded _ _ _ _ Hdecoded). unfold Player.buffer_frame.
      destruct (Player.interleave (Decoder.channelData frame)) as [inter|]; simpl;
        destruct (Player._decodedSampleRate p); simpl; by rewrite ?(right_id_L [] (++)).
    + by rewrite (feed_not_decoded _ _ _ Hdecoded), (right_id_L [] (++)).
  - rewrite (right_id_L [] (++)).
    destruct (Player.intervalId p); [|done].
    destruct (flush_cases currentTime p) as [?|? ?|? ? ?|Hpos Hge _]; simpl; try done.
    by rewrite played_drained, take_drop.
  - by rewrite (right_id_L [] (++)).
Qed.

(** X2.  As long as the player is not destroyed, no sample is lost,
    repeated or reordered: the backlog at the start of a run followed by
    everything the run's calls of [feed] interleaved is the content of the
    buffers the run scheduled, in order, followed by the backlog at the
    end. *)
Theorem samples_conserved es p :
  forallb (negb ∘ is_destroy) es = true →
  Player.samples p ++ mjoin (ingested <$> es)
  = mjoin (played <$> (Player.run es p).1) ++ Player.samples (Player.run es p).2.
Proof.
  revert p. induction es as [|e es IH]; intros p Hes.
  - simpl. by rewrite (right_id_L [] (++)).
  - simpl in Hes. apply andb_prop in Hes as [He Hes].
    rewrite run_cons, fmap_cons. simpl.
    rewrite fmap_app, join_app, (assoc_L (++)), <-(assoc_L (++) (mjoin _)).
    rewrite <-(IH _ Hes), !(assoc_L (++)). f_equal.
    rewrite (step_conserves e p) by (by destruct (is_destroy e)).
    f_equal. destruct (Player.step e p).1; simpl; by rewrite ?(right_id_L [] (++)).
Qed.

Lemma samples_conserved_witness :
  Player.samples (Player.new stereo_8kHz 0)
  ++ mjoin (ingested <$> [Player.Feed (answering frame_a) packet; Player.Tick 0;
                          Player.Feed (answering frame_mono) packet])
  = mjoin (played <$> (Player.run [Player.Feed (answering frame_a) packet; Player.Tick 0;
                                   Player.Feed (answering frame_mono) packet]
                         (Player.new stereo_8kHz 0)).1)
    ++ Player.samples (Player.run [Player.Feed (answering frame_a) packet; Player.Tick 0;
                                   Player.Feed (answering frame_mono) packet]
                         (Player.new stereo_8kHz 0)).2.
Proof.
  apply (samples_conserved [Player.Feed (answering frame_a) packet; Player.Tick 0;
                            Player.Feed (answering frame_mono) packet]
           (Player.new stereo_8kHz 0)).
  reflexivity.
Defined.

(** ** What [flush] hands to the sink *)

(** X3.  A buffer that [flush] schedules is well formed and made of whole
    frames: it has the effective number of channels, which is at least 1,
    at the effective sample rate, which is positive; its length is a
    positive multiple of [frameSamples] (the number of complete frames
    in the backlog); and every channel holds exactly that many samples. *)
Theorem scheduled_buffer_shape currentTime p s p' :
  Player.flush currentTime p = (Player.Returned (Some s), p') →
  let b := WebAudio.buffer s in
  0 < WebAudio.numberOfChannels b ∧
  WebAudio.numberOfChannels b = Player.effective_channels p ∧
  length (WebAudio.channels b) = WebAudio.numberOfChannels b ∧
  Forall (λ chData, length chData = WebAudio.length b) (WebAudio.channels b) ∧
  WebAudio.sampleRate b = Player.sr p ∧
  (0 < WebAudio.sampleRate b)%N ∧
  0 < frames_available p ∧
  0 < WebAudio.length b ∧
  WebAudio.length b = Player.frameSamples p * frames_available p.
Proof.
  intros (Hpos & Hge & -> & _)%flush_Some_inv. simpl.
  destruct (frameSize_pos p Hpos) as (Hfs & Hch & Hsr).
  assert (0 < frames_available p) as Hk
    by (unfold frames_available; apply Nat.div_str_pos; lia).
  repeat split; try done.
  - apply length_planar.
  - apply (proj2 (block_planar _ _ _)).
  - by apply Nat.mul_pos_pos.
Qed.

Lemma scheduled_buffer_shape_witness :
  ∃ s p',
    Player.flush 0 fed_a = (Player.Returned (Some s), p') ∧
    WebAudio.length (WebAudio.buffer s)
    = Player.frameSamples fed_a * frames_available fed_a.
Proof.
  assert (∃ s p', Player.flush 0 fed_a = (Player.Returned (Some s), p'))
    as (s & p' & Hflush) by (eexists _, _; vm_compute; reflexivity).
  exists s, p'. split; [exact Hflush|].
  apply (scheduled_buffer_shape 0 fed_a s p' Hflush).
Defined.

Lemma flush_frameSize currentTime p :
  Player.frameSize (Player.flush currentTime p).2 = Player.frameSize p.
Proof. by destruct (flush_cases currentTime p). Qed.

(** X4.  A call of [flush] leaves nothing for a second call to do:
    whatever the first call did, and whenever the second comes, the
    second schedules nothing and leaves the player as the first left it.
    It returns normally when the first did, and raises the same error
    again when the first raised (a frame of no samples, or a buffer that
    the sink does not accept). *)
Theorem flush_twice currentTime1 currentTime2 p :
  Player.flush currentTime2 (Player.flush currentTime1 p).2
  = (match (Player.flush currentTime1 p).1 with
     | Player.Threw e => Player.Threw e
     | Player.Returned _ => Player.Returned None
     end,
     (Player.flush currentTime1 p).2).
Proof.
  destruct (flush_cases currentTime1 p) as [Hzero|Hpos Hlt|Hpos Hge Hno|Hpos Hge Hyes]; simpl.
  - destruct (flush_cases currentTime2 p); (done || lia).
  - destruct (flush_cases currentTime2 p); (done || lia).
  - destruct (flush_cases currentTime2 p); (done || lia || congruence).
  - set (p' := Player.set_samples _ _).
    assert (Player.frameSize p' = Player.frameSize p) as Hsize by done.
    assert (length (Player.samples p') < Player.frameSize p') as Hshort.
    { rewrite Hsize. unfold p'. simpl. rewrite length_drop. unfold frames_available.
      pose proof (Nat.div_mod_eq (length (Player.samples p)) (Player.frameSize p)).
      pose proof (Nat.mod_upper_bound (length (Player.samples p)) (Player.frameSize p)).
      lia. }
    destruct (flush_cases currentTime2 p'); (done || lia).
Qed.

(** ** After [destroy] *)

Lemma step_stopped e p :
  Player.intervalId p = false →
  (Player.step e p).1 = None ∧ Player.intervalId (Player.step e p).2 = false.
Proof.
  intros Hstopped. destruct e as [decoder data|currentTime|level|]; simpl; try done.
  - split; [done|]. unfold Player.feed, Player.buffer_frame.
    repeat (case_match; simpl; try done).
  - by rewrite Hstopped.
Qed.

Lemma step_closed e p :
  Player.audioCtx p = WebAudio.Closed →
  Player.audioCtx (Player.step e p).2 = WebAudio.Closed.
Proof.
  intros Hclosed. destruct e as [decoder data|currentTime|level|]; simpl; try done.
  - unfold Player.feed, Player.buffer_frame.
    repeat (case_match; simpl; try done).
  - destruct (Player.intervalId p); [|done].
    by destruct (flush_cases currentTime p).
Qed.

Lemma run_stopped es p :
  Player.intervalId p = false →
  Player.audioCtx p = WebAudio.Closed →
  (Player.run es p).1 = [] ∧
  Player.intervalId (Player.run es p).2 = false ∧
  Player.audioCtx (Player.run es p).2 = WebAudio.Closed ∧
  Player.startTime (Player.run es p).2 = Player.startTime p.
Proof.
  revert p. induction es as [|e es IH]; intros p Hstopped Hclosed; [done|].
  rewrite run_cons. simpl.
  destruct (step_stopped e p Hstopped) as [Hnone Hstopped'].
  pose proof (step_closed e p Hclosed) as Hclosed'.
  pose proof (step_quiet_startTime e p Hnone) as Hclock.
  destruct (IH _ Hstopped' Hclosed') as (-> & ? & ? & ->).
  by rewrite Hnone.
Qed.

(** X5.  After [destroy], no run of events ever schedules a buffer again,
    the timer stays stopped, the context stays closed and the virtual
    clock stays where it was.  [feed] is not turned off, though: a call
    that gets a frame with at least one channel still appends its
    interleaved samples to the backlog, which nothing drains any more. *)
Theorem nothing_scheduled_after_destroy es p :
  (Player.run es (Player.destroy p).2).1 = [] ∧
  Player.intervalId (Player.run es (Player.destroy p).2).2 = false ∧
  Player.audioCtx (Player.run es (Player.destroy p).2).2 = WebAudio.Closed ∧
  Player.startTime (Player.run es (Player.destroy p).2).2 = Player.startTime p ∧
  (∀ decoder data frame first,
     decoded decoder data = Some frame →
     Decoder.channelData frame !! 0 = Some first →
     Player.samples (Player.feed decoder data (Player.destroy p).2).2
     = interleaved (Decoder.channelData frame)
         (length (Decoder.channelData frame)) (length first)).
Proof.
  destruct (run_stopped es (Player.destroy p).2)
    as (Hnone & Hstopped & Hclosed & Hclock); try done.
  repeat split; try done.
  intros decoder data frame first Hdecoded Hfirst.
  rewrite (feed_decoded _ _ _ _ Hdecoded).
  by destruct (buffer_frame_samples frame (Player.destroy p).2 first Hfirst) as [_ ->].
Qed.

Lemma nothing_scheduled_after_destroy_witness :
  Player.samples (Player.feed (answering frame_mono) packet (Player.destroy fed_a).2).2
  = interleaved (Decoder.channelData frame_mono) 1 4.
Proof.
  apply (proj2 (proj2 (proj2 (proj2 (nothing_scheduled_after_destroy [] fed_a))))
           (answering frame_mono) packet frame_mono [0.5; 0.25; -0.25; -0.5]%float);
    reflexivity.
Defined.

(** ** How [feed] fails *)

(** X6.  A call of [feed] that raises leaves the backlog, the virtual
    clock, the timer, the context, the gain and the options as they were.
    It leaves the whole player as it was unless the error is the
    [TypeError] of a frame without channels.  Each error has one cause:
    a decoder that is not ready, a view that does not fit in its buffer,
    a packet that the decoder rejects, or a frame without channels. *)
Theorem failed_feed_keeps_backlog decoder data p e :
  (Player.feed decoder data p).1 = JS.Throw e →
  let p' := (Player.feed decoder data p).2 in
  Player.samples p' = Player.samples p ∧
  Player.startTime p' = Player.startTime p ∧
  Player.intervalId p' = Player.intervalId p ∧
  Player.audioCtx p' = Player.audioCtx p ∧
  Player.gainNode p' = Player.gainNode p ∧
  Player.option p' = Player.option p ∧
  (e ≠ JS.TypeError → p' = p) ∧
  Player.isTypedArray data = true ∧
  match e with
  | JS.DecoderNotReady => Decoder.ready decoder = false
  | JS.RangeError =>
      ∃ byteLength byteOffset bytes,
        data = JS.Object (Some byteLength) byteOffset (JS.ArrayBuffer bytes) ∧
        JS.new_Uint8Array bytes byteOffset byteLength = None
  | JS.DecodeError =>
      ∃ byteLength byteOffset bytes view,
        data = JS.Object (Some byteLength) byteOffset (JS.ArrayBuffer bytes) ∧
        JS.new_Uint8Array bytes byteOffset byteLength = Some view ∧
        Decoder.decodeFrame decoder view = None
  | JS.TypeError =>
      ∃ frame, decoded decoder data = Some frame ∧ Decoder.channelData frame = []
  | JS.NotSupportedError => False
  end.
Proof.
  unfold Player.feed.
  destruct data as [|[byteLength|] byteOffset [bytes|]]; try done.
  simpl. destruct (Decoder.ready decoder) eqn:Hready; simpl.
  - destruct (JS.new_Uint8Array bytes byteOffset byteLength) as [view|] eqn:Hview.
    + destruct (Decoder.decodeFrame decoder view) as [frame|] eqn:Hframe.
      * unfold Player.buffer_frame.
        destruct (Player.interleave (Decoder.channelData frame)) as [inter|] eqn:Hinter;
          [by destruct (Player._decodedSampleRate p)|].
        apply interleave_None in Hinter.
        intros [= <-]. repeat split; try (by destruct (Player._decodedSampleRate p)).
        exists frame. by simpl.
      * intros [= <-]. simpl. repeat split; try done. by exists byteLength, byteOffset, bytes, view.
    + intros [= <-]. simpl. repeat split; try done. by exists byteLength, byteOffset, bytes.
  - by intros [= <-].
Qed.

Lemma failed_feed_keeps_backlog_witness :
  Player.samples (Player.feed (answering frame_a) overlong fed_a).2 = Player.samples fed_a.
Proof.
  apply (failed_feed_keeps_backlog (answering frame_a) overlong fed_a JS.RangeError).
  reflexivity.
Defined.



(** ** The bytes that reach the decoder *)

(** X8.  With a ready decoder, [feed] decodes exactly the bytes of the
    view: the [byteLength] bytes of the buffer from [byteOffset] on (from
    0 when [byteOffset] is [undefined]), provided the view lies within the
    buffer; it then raises [DecodeError] and leaves the player as it was
    if the decoder rejects them, and buffers the decoded frame otherwise.
    A view that starts before the buffer, has a negative length or ends
    past the buffer makes [feed] raise [RangeError] before the decoder
    sees anything. *)
Theorem feed_decodes_view decoder byteLength byteOffset bytes p :
  Decoder.ready decoder = true →
  let data := JS.Object (Some byteLength) byteOffset (JS.ArrayBuffer bytes) in
  let offset := default 0%Z byteOffset in
  let view := take (Z.to_nat byteLength) (drop (Z.to_nat offset) bytes) in
  ((0 ≤ offset)%Z → (0 ≤ byteLength)%Z →
   (offset + byteLength ≤ Z.of_nat (length bytes))%Z →
   length view = Z.to_nat byteLength ∧
   (∀ i, i < Z.to_nat byteLength → view !! i = bytes !! (Z.to_nat offset + i)) ∧
   Player.feed decoder data p
   = match Decoder.decodeFrame decoder view with
     | Some frame => Player.buffer_frame frame p
     | None => (JS.Throw JS.DecodeError, p)
     end) ∧
  ((offset < 0)%Z ∨ (byteLength < 0)%Z ∨ (Z.of_nat (length bytes) < offset + byteLength)%Z →
   Player.feed decoder data p = (JS.Throw JS.RangeError, p)).
Proof.
  intros Hready data offset view. split.
  - intros Hoffset Hlen Hfit. split; [|split].
    + unfold view. rewrite length_take, length_drop. lia.
    + intros i Hi. unfold view. by rewrite lookup_take_lt, lookup_drop by done.
    + unfold Player.feed. simpl. rewrite Hready. simpl.
      unfold JS.new_Uint8Array. fold offset.
      replace ((offset <? 0)%Z || (byteLength <? 0)%Z
               || (Z.of_nat (length bytes) <? offset + byteLength)%Z) with false; [done|].
      symmetry. rewrite !orb_false_iff, !Z.ltb_ge. lia.
  - intros Hout. unfold Player.feed. simpl. rewrite Hready. simpl.
    unfold JS.new_Uint8Array. fold offset.
    replace ((offset <? 0)%Z || (byteLength <? 0)%Z
             || (Z.of_nat (length bytes) <? offset + byteLength)%Z) with true; [done|].
    symmetry. rewrite !orb_true_iff, !Z.ltb_lt. tauto.
Qed.

Lemma feed_decodes_view_witness :
  Player.feed (answering frame_a)
    (JS.Object (Some 2%Z) (Some 1%Z) (JS.ArrayBuffer [Byte.x01; Byte.x02; Byte.x03]))
    (Player.new stereo_8kHz 0)
  = match Decoder.decodeFrame (answering frame_a) [Byte.x02; Byte.x03] with
    | Some frame => Player.buffer_frame frame (Player.new stereo_8kHz 0)
    | None => (JS.Throw JS.DecodeError, Player.new stereo_8kHz 0)
    end.
Proof.
  refine (proj2 (proj2 (proj1 (feed_decodes_view (answering frame_a) 2%Z (Some 1%Z)
                                 [Byte.x01; Byte.x02; Byte.x03]
                                 (Player.new stereo_8kHz 0) _) _ _ _)));
    (reflexivity || (simpl; lia)).
Defined.

(** ** One channel *)

Lemma interleaved_mono (chan : list JS.sample) :
  interleaved [chan] 1 (length chan) = chan.
Proof.
  apply list_eq. intros i.
  destruct (Nat.lt_ge_cases i (length chan)) as [Hi|Hi].
  - replace i with (i * 1 + 0) at 1 by lia.
    rewrite lookup_interleaved by lia.
    destruct (lookup_lt_is_Some_2 chan i Hi) as [x Hx].
    by rewrite Hx, (channel_sample_lookup [chan] 0 i chan x).
  - rewrite !lookup_ge_None_2; [done|done|rewrite length_interleaved; lia].
Qed.

(** X9.  For a frame of one channel, interleaving changes nothing: [feed]
    returns normally and appends the channel's samples to the backlog as
    they are. *)
Theorem mono_frame_appended_as_is decoder data p frame chan :
  decoded decoder data = Some frame →
  Decoder.channelData frame = [chan] →
  (Player.feed decoder data p).1 = JS.Normal ∧
  Player.samples (Player.feed decoder data p).2 = Player.samples p ++ chan.
Proof.
  intros Hdecoded Hmono. rewrite (feed_decoded _ _ _ _ Hdecoded).
  destruct (buffer_frame_samples frame p chan) as [Hnormal Hsamples];
    [by rewrite Hmono|].
  split; [done|]. rewrite Hsamples, Hmono. simpl. by rewrite interleaved_mono.
Qed.

Lemma mono_frame_appended_as_is_witness :
  Player.samples (Player.feed (answering frame_mono) packet fed_a).2
  = Player.samples fed_a ++ [0.5; 0.25; -0.25; -0.5]%float.
Proof.
  apply (mono_frame_appended_as_is (answering frame_mono) packet fed_a frame_mono);
    reflexivity.
Defined.

(** ** Before the first frame *)




(** ** The frame size over a run *)

Lemma step_option e p : Player.option (Player.step e p).2 = Player.option p.
Proof.
  destruct e as [decoder data|currentTime|level|]; simpl; try done.
  - unfold Player.feed, Player.buffer_frame. repeat (case_match; simpl; try done).
  - destruct (Player.intervalId p); [|done]. by destruct (flush_cases currentTime p).
Qed.

Lemma run_option es p : Player.option (Player.run es p).2 = Player.option p.
Proof.
  revert p. induction es as [|e es IH]; intros p; [done|].
  rewrite run_cons. simpl. by rewrite IH, step_option.
Qed.

(** X12.  Once the format is set, the frame never changes size: over any
    run of events the options, the effective sample rate and channel
    count, [frameSamples] and [frameSize] stay what they were, whatever
    formats later frames have. *)
Theorem frame_size_fixed_once_latched es p rate :
  Player._decodedSampleRate p = Some rate →
  Player.option (Player.run es p).2 = Player.option p ∧
  Player.sr (Player.run es p).2 = Player.sr p ∧
  Player.effective_channels (Player.run es p).2 = Player.effective_channels p ∧
  Player.frameSamples (Player.run es p).2 = Player.frameSamples p ∧
  Player.frameSize (Player.run es p).2 = Player.frameSize p.
Proof.
  intros Hrate. destruct (run_latched es p rate Hrate) as [Hrate' Hch'].
  pose proof (run_option es p) as Hoption.
  assert (Player.sr (Player.run es p).2 = Player.sr p) as Hsr
    by (unfold Player.sr; by rewrite Hrate', Hrate, Hoption).
  assert (Player.effective_channels (Player.run es p).2 = Player.effective_channels p) as Hch
    by (unfold Player.effective_channels; by rewrite Hch', Hoption).
  assert (Player.frameSamples (Player.run es p).2 = Player.frameSamples p) as Hfs
    by (unfold Player.frameSamples; by rewrite Hsr, Hoption).
  repeat split; try done. unfold Player.frameSize. by rewrite Hfs, Hch.
Qed.

Lemma frame_size_fixed_once_latched_witness :
  Player.frameSize
    (Player.run [Player.Feed (answering frame_mono) packet; Player.Tick 0] fed_a).2
  = Player.frameSize fed_a.
Proof.
  apply (frame_size_fixed_once_latched
           [Player.Feed (answering frame_mono) packet; Player.Tick 0] fed_a 8000%N).
  reflexivity.
Defined.

(** ** How long a buffer lasts *)

Lemma frameSamples_floor p :
  (Z.of_nat (Player.frameSamples p) * 1000
   ≤ Z.of_N (Player.sr p) * Z.of_N (Player.flushingTime (Player.option p)))%Z ∧
  (((Player.sr p * Player.flushingTime (Player.option p)) mod 1000 = 0)%N →
   (Z.of_nat (Player.frameSamples p) * 1000
    = Z.of_N (Player.sr p) * Z.of_N (Player.flushingTime (Player.option p)))%Z).
Proof.
  (* the quotient and the remainder of the division by 1000 *)
  unfold Player.frameSamples.
  set (n := (Player.sr p * Player.flushingTime (Player.option p))%N).
  pose proof (N.div_mod n 1000 ltac:(done)) as Hdiv.
  pose proof (N.le_0_l (n `mod` 1000)) as Hmod.
  rewrite N_nat_Z, <-N2Z.inj_mul. fold n. clearbody n.
  split; [|intros Hzero]; lia.
Qed.

Lemma frameSamples_rounded_down p :
  ((Player.sr p * Player.flushingTime (Player.option p)) mod 1000 ≠ 0)%N →
  (Z.of_nat (Player.frameSamples p) * 1000
   < Z.of_N (Player.sr p) * Z.of_N (Player.flushingTime (Player.option p)))%Z.
Proof.
  unfold Player.frameSamples.
  set (n := (Player.sr p * Player.flushingTime (Player.option p))%N).
  pose proof (N.div_mod n 1000 ltac:(done)) as Hdiv.
  pose proof (N.le_0_l (n `mod` 1000)) as Hmod.
  rewrite N_nat_Z, <-N2Z.inj_mul. fold n. clearbody n.
  intros Hrest. lia.
Qed.

(** X13.  A scheduled buffer of [k] frames lasts at most [k] flush
    periods; exactly [k] flush periods when the sample rate times the
    flush period in milliseconds is a multiple of 1000 (as for 48 kHz and
    20 ms); and strictly less otherwise, [frameSamples] being rounded
    down, so that the buffer is shorter than the ticks that drain it. *)
Theorem buffer_lasts_at_most_its_periods currentTime p s p' :
  Player.flush currentTime p = (Player.Returned (Some s), p') →
  let k := inject_Z (Z.of_nat (frames_available p)) in
  let period := (inject_Z (Z.of_N (Player.flushingTime (Player.option p))) / 1000)%Q in
  (WebAudio.duration (WebAudio.buffer s) <= k * period)%Q ∧
  (((Player.sr p * Player.flushingTime (Player.option p)) mod 1000 = 0)%N →
   (WebAudio.duration (WebAudio.buffer s) == k * period)%Q) ∧
  (((Player.sr p * Player.flushingTime (Player.option p)) mod 1000 ≠ 0)%N →
   (WebAudio.duration (WebAudio.buffer s) < k * period)%Q).
Proof.
  intros (Hpos & Hge & -> & _)%flush_Some_inv. simpl.
  destruct (frameSize_pos p Hpos) as (_ & _ & Hsr).
  destruct (frameSamples_floor p) as [Hfloor Hexact].
  pose proof (frameSamples_rounded_down p) as Hstrict.
  assert (0 < frames_available p) as Hframes
    by (unfold frames_available; apply Nat.div_str_pos; lia).
  unfold WebAudio.duration. simpl.
  destruct (Player.sr p) as [|rate]; [lia|].
  rewrite Nat2Z.inj_mul.
  set (fs := Z.of_nat (Player.frameSamples p)) in *.
  set (k := Z.of_nat (frames_available p)).
  set (ft := Z.of_N (Player.flushingTime (Player.option p))) in *.
  assert (0 < k)%Z as Hk by (unfold k; lia).
  split; [|split].
  - unfold Qle, Qdiv, Qmult, Qinv, inject_Z. simpl. nia.
  - intros Hzero. specialize (Hexact Hzero).
    unfold Qeq, Qdiv, Qmult, Qinv, inject_Z. simpl. nia.
  - intros Hrest. specialize (Hstrict Hrest).
    unfold Qlt, Qdiv, Qmult, Qinv, inject_Z. simpl. nia.
Qed.

Lemma buffer_lasts_at_most_its_periods_witness :
  ∃ s p',
    Player.flush (1 # 50) fed_20ms = (Player.Returned (Some s), p') ∧
    (WebAudio.duration (WebAudio.buffer s)
     == inject_Z (Z.of_nat (frames_available fed_20ms))
        * (inject_Z (Z.of_N (Player.flushingTime (Player.option fed_20ms))) / 1000))%Q.
Proof.
  assert (∃ s p', Player.flush (1 # 50) fed_20ms = (Player.Returned (Some s), p'))
    as (s & p' & Hflush) by (eexists _, _; vm_compute; reflexivity).
  exists s, p'. split; [exact Hflush|].
  apply (buffer_lasts_at_most_its_periods (1 # 50) fed_20ms s p' Hflush).
  vm_compute. reflexivity.
Defined.

Lemma period_le_duration p :
  0 < Player.frameSize p →
  Player.frameSize p ≤ length (Player.samples p) →
  ((Player.sr p * Player.flushingTime (Player.option p)) mod 1000 = 0)%N →
  (inject_Z (Z.of_N (Player.flushingTime (Player.option p))) / 1000
   <= WebAudio.duration (drained_buffer p))%Q.
Proof.
  intros Hpos Hge Hzero.
  destruct (frameSize_pos p Hpos) as (_ & _ & Hsr).
  destruct (frameSamples_floor p) as [_ Hexact]. specialize (Hexact Hzero).
  assert (0 < frames_available p) as Hk
    by (unfold frames_available; apply Nat.div_str_pos; lia).
  unfold WebAudio.duration, drained_buffer. simpl.
  destruct (Player.sr p) as [|rate]; [lia|].
  rewrite Nat2Z.inj_mul.
  set (fs := Z.of_nat (Player.frameSamples p)) in *.
  set (k := Z.of_nat (frames_available p)).
  set (ft := Z.of_N (Player.flushingTime (Player.option p))) in *.
  assert (1 ≤ k)%Z as Hk' by (unfold k; lia).
  assert (0 ≤ ft)%Z as Hft by (unfold ft; lia).
  unfold Qle, Qdiv, Qmult, Qinv, inject_Z. simpl. nia.
Qed.

(** X14.  With a punctual timer playback is gapless: when the sample rate
    times the flush period in milliseconds is a multiple of 1000, and two
    successive calls of [flush] each schedule a buffer, the second call
    coming at most one flush period after the first, the second buffer
    starts exactly where the first one ends. *)
Theorem punctual_ticks_play_gapless currentTime1 currentTime2 p first p1 between second p2 :
  Player.flush currentTime1 p = (Player.Returned (Some first), p1) →
  forallb (negb ∘ Player.is_tick) between = true →
  Player.flush currentTime2 (Player.run between p1).2 = (Player.Returned (Some second), p2) →
  ((Player.sr p * Player.flushingTime (Player.option p)) mod 1000 = 0)%N →
  (currentTime2
   <= currentTime1 + inject_Z (Z.of_N (Player.flushingTime (Player.option p))) / 1000)%Q →
  WebAudio.when second
  = (WebAudio.when first + WebAudio.duration (WebAudio.buffer first))%Q.
Proof.
  intros (Hpos & Hge & -> & ->)%flush_Some_inv Hquiet (_ & _ & -> & _)%flush_Some_inv
    Hzero Hpunctual.
  rewrite run_startTime_quiet by done. simpl.
  apply clamp_on_time.
  eapply Qle_trans; [exact Hpunctual|].
  apply Qplus_le_compat; [apply clamp_ge_now|by apply period_le_duration].
Qed.

Lemma punctual_ticks_play_gapless_witness :
  ∃ first second,
    WebAudio.when second
    = (WebAudio.when first + WebAudio.duration (WebAudio.buffer first))%Q.
Proof.
  eexists _, _.
  refine (punctual_ticks_play_gapless 0 (1 # 1000) fed_a _ _
            [Player.Feed (answering frame_b) packet] _ _ _ _ _ _ _).
  - vm_compute. reflexivity.
  - reflexivity.
  - vm_compute. reflexivity.
  - reflexivity.
  - vm_compute. discriminate.
Defined.

(** ** Where [flush] reads *)

(** X15.  [flush] reads the backlog with the stride of the channel
    count: frame [i] of channel [c] of a scheduled buffer is the backlog
    sample at index [i * channels + c], and every such index lies within
    the part of the backlog that the call removes. *)
Theorem flush_reads_by_channel_stride currentTime p s p' c i :
  Player.flush currentTime p = (Player.Returned (Some s), p') →
  c < Player.effective_channels p →
  i < WebAudio.length (WebAudio.buffer s) →
  i * Player.effective_channels p + c < frames_available p * Player.frameSize p ∧
  ∃ chData x,
    WebAudio.channels (WebAudio.buffer s) !! c = Some chData ∧
    chData !! i = Some x ∧
    Player.samples p !! (i * Player.effective_channels p + c) = Some x.
Proof.
  intros (Hpos & Hge & -> & _)%flush_Some_inv Hc Hi. simpl in *.
  assert (frames_available p * Player.frameSize p ≤ length (Player.samples p)) as Hfit.
  { unfold frames_available.
    pose proof (Nat.div_mod_eq (length (Player.samples p)) (Player.frameSize p)). lia. }
  assert (i * Player.effective_channels p + c < frames_available p * Player.frameSize p)
    as Hin by (unfold Player.frameSize; nia).
  split; [done|].
  destruct (lookup_lt_is_Some_2 (Player.samples p) (i * Player.effective_channels p + c))
    as [x Hx]; [lia|].
  eexists _, x. split; [by apply lookup_planar|]. split; [|done].
  rewrite list_lookup_fmap, lookup_seq_lt by done. simpl.
  unfold JS.load. by rewrite (Nat.add_comm c), Hx.
Qed.

Lemma flush_reads_by_channel_stride_witness :
  ∃ s p',
    Player.flush 0 fed_a = (Player.Returned (Some s), p') ∧
    ∃ chData x,
      WebAudio.channels (WebAudio.buffer s) !! 1 = Some chData ∧
      chData !! 3 = Some x ∧
      Player.samples fed_a !! (3 * Player.effective_channels fed_a + 1) = Some x.
Proof.
  assert (∃ s p', Player.flush 0 fed_a = (Player.Returned (Some s), p'))
    as (s & p' & Hflush) by (eexists _, _; vm_compute; reflexivity).
  exists s, p'. split; [exact Hflush|].
  refine (proj2 (flush_reads_by_channel_stride 0 fed_a s p' 1 3 Hflush _ _)).
  - vm_compute. lia.
  - destruct (flush_Some_inv _ _ _ _ Hflush) as (_ & _ & -> & _). vm_compute. lia.
Defined.

(** ** A frame of no samples *)

(** X16.  A frame is empty exactly when the sample rate times the flush
    period in milliseconds is below 1000 or the channel count is 0.
    Every call of [flush] then raises the sink's [NotSupportedError],
    whatever the backlog holds, and leaves the player as it was, and a
    tick of the timer schedules nothing. *)
Theorem empty_frame_always_raises currentTime p :
  (Player.frameSize p = 0 ↔
   (Player.sr p * Player.flushingTime (Player.option p) < 1000)%N
   ∨ Player.effective_channels p = 0) ∧
  (Player.frameSize p = 0 →
   Player.flush currentTime p = (Player.Threw JS.NotSupportedError, p) ∧
   Player.step (Player.Tick currentTime) p = (None, p)).
Proof.
  split.
  - unfold Player.frameSize, Player.frameSamples.
    set (n := (Player.sr p * Player.flushingTime (Player.option p))%N). clearbody n.
    rewrite Nat.mul_eq_0.
    assert (N.to_nat (n `div` 1000) = 0 ↔ (n < 1000)%N) as ->; [|done].
    rewrite <-N.div_small_iff by done. lia.
  - intros Hzero.
    assert (Player.flush currentTime p = (Player.Threw JS.NotSupportedError, p)) as Hflush
      by (destruct (flush_cases currentTime p); (done || lia)).
    split; [done|]. simpl. rewrite Hflush. by destruct (Player.intervalId p).
Qed.

Lemma empty_frame_always_raises_witness :
  Player.flush (1 # 50) (Player.new period_0 0)
  = (Player.Threw JS.NotSupportedError, Player.new period_0 0).
Proof.
  apply (proj2 (empty_frame_always_raises (1 # 50) (Player.new period_0 0))).
  vm_compute. reflexivity.
Defined.
